(** * file-splitter: a shallow embedding of [file_splitter.py]

    The development follows the source file top to bottom:
    [calculate_file_hash], [split_file], [read_part_worker_streaming],
    [write_part_worker_streaming], [join_files_multithreaded_streaming],
    [join_files_single_streaming] and [main].

    Modelling conventions.
    - Python integers are [Z]; byte strings are [list byte]; text is
      [string], one character per byte when it is stored in a file.
    - A directory is an association list from file names to contents, in
      the order [os.listdir] reports them.  The parts directory and the
      output file are separate objects: the output path is taken not to
      name a file inside the parts directory.
    - [print] is modelled by the outcome values and log entries the
      functions return.  It is taken not to fail, except in the reader:
      there a failing [print] is caught by the [except] clause and changes
      the messages sent, so it is one of the faults a reader can meet.
    - The file system is taken to hold a file of any size a manifest
      gives: [truncate] fails for a negative size only.
    - Loops that read a file are written with an explicit fuel argument;
      every use comes with a lemma showing that the fuel supplied is
      enough, or that no fuel is.
    - The threads of the concurrent join are modelled by the messages
      they exchange: each reader is the list of messages it puts on the
      queue, a schedule tells in which order the messages of different
      readers arrive, when the writer waits in vain and when the join
      stops waiting for the writer, and the writer is a function of the
      events it finds on the queue. *)

From Stdlib Require Import ZArith Lia List Permutation.
From Stdlib.Strings Require Import String Ascii Byte.
From stdpp Require Import base tactics list numbers strings pretty.

Import ListNotations.
Local Open Scope Z_scope.

(** ** Exceptions *)

Inductive exn := ValueError | IndexError | TypeError | OSError.

Inductive result (A : Type) :=
| Ok (a : A)
| Raise (e : exn).
Arguments Ok {A} a.
Arguments Raise {A} e.

Definition bind {A B} (r : result A) (k : A -> result B) : result B :=
  match r with
  | Ok a => k a
  | Raise e => Raise e
  end.

Definition of_option {A} (e : exn) (o : option A) : result A :=
  match o with
  | Some a => Ok a
  | None => Raise e
  end.

Notation "'let*' x := r 'in' k" := (bind r (fun x => k))
  (at level 10, x name, r at level 100, k at level 200).

(** ** Bytes and files *)

Abbreviation bytes := (list byte).

Definition byte_to_Z (b : byte) : Z := Z.of_N (Byte.to_N b).

(** [f.read(n)] on a binary file whose unread content is [rest]: a size
    below -1 raises [ValueError], -1 reads to the end of the file,
    otherwise at most [n] bytes are returned.  The result is the chunk and
    what is left. *)
Definition file_read (n : Z) (rest : bytes) : result (bytes * bytes) :=
  if n <? -1 then Raise ValueError
  else if n <? 0 then Ok (rest, [])
  else Ok (take (Z.to_nat n) rest, drop (Z.to_nat n) rest).

(** Python's truthiness of a byte string: [not chunk]. *)
Definition is_empty {A} (l : list A) : bool :=
  match l with [] => true | _ => false end.

(** ** SHA-256 ([hashlib.sha256]) *)

Module SHA256.

Definition w32 (x : Z) : Z := Z.land x 4294967295.
Definition add32 (x y : Z) : Z := w32 (x + y).
Definition rotr (n x : Z) : Z :=
  Z.lor (Z.shiftr x n) (w32 (Z.shiftl x (32 - n))).
Definition not32 (x : Z) : Z := Z.lxor x 4294967295.

Definition Ch (x y z : Z) : Z :=
  Z.lxor (Z.land x y) (Z.land (not32 x) z).
Definition Maj (x y z : Z) : Z :=
  Z.lxor (Z.lxor (Z.land x y) (Z.land x z)) (Z.land y z).
Definition Sigma0 (x : Z) : Z :=
  Z.lxor (Z.lxor (rotr 2 x) (rotr 13 x)) (rotr 22 x).
Definition Sigma1 (x : Z) : Z :=
  Z.lxor (Z.lxor (rotr 6 x) (rotr 11 x)) (rotr 25 x).
Definition sigma0 (x : Z) : Z :=
  Z.lxor (Z.lxor (rotr 7 x) (rotr 18 x)) (Z.shiftr x 3).
Definition sigma1 (x : Z) : Z :=
  Z.lxor (Z.lxor (rotr 17 x) (rotr 19 x)) (Z.shiftr x 10).

(** The round constants are the first 32 bits of the fractional parts of
    the cube roots of the first 64 primes; the initial hash value comes
    in the same way from the square roots of the first 8. *)
Definition is_prime (n : Z) : bool :=
  forallb (fun k => negb (n mod k =? 0)) (seqZ 2 (n - 2)).

Definition primes : list Z :=
  Eval vm_compute in filter (fun n => is_prime n = true) (seqZ 2 310).

Fixpoint cube_root_from (bit : nat) (n r : Z) : Z :=
  match bit with
  | O => r
  | S bit' =>
      let r' := r + Z.shiftl 1 (Z.of_nat bit') in
      cube_root_from bit' n (if r' * r' * r' <=? n then r' else r)
  end.

Definition cube_root (n : Z) : Z := cube_root_from 40 n 0.

Definition K : list Z :=
  Eval vm_compute in
    map (fun p => w32 (cube_root (Z.shiftl p 96))) primes.

(** The eight working variables. *)
Record state := State {
  ha : Z; hb : Z; hc : Z; hd : Z; he : Z; hf : Z; hg : Z; hh : Z }.

Definition state_of_list (l : list Z) : state :=
  State (nth 0 l 0) (nth 1 l 0) (nth 2 l 0) (nth 3 l 0)
        (nth 4 l 0) (nth 5 l 0) (nth 6 l 0) (nth 7 l 0).

Definition H0 : state :=
  Eval vm_compute in
    state_of_list
      (map (fun p => w32 (Z.sqrt (Z.shiftl p 64))) (take 8 primes)).

(** Message padding: a one bit, zeros, and the bit length on 64 bits. *)
Definition be_bytes (n : nat) (x : Z) : list Z :=
  map (fun i => Z.land (Z.shiftr x (8 * Z.of_nat i)) 255) (rev (seq 0 n)).

Definition pad (msg : list Z) : list Z :=
  let len := Z.of_nat (length msg) in
  let k := Z.to_nat ((55 - len) mod 64) in
  msg ++ [128] ++ repeat 0 k ++ be_bytes 8 (8 * len).

Fixpoint words_of_bytes (l : list Z) : list Z :=
  match l with
  | b0 :: b1 :: b2 :: b3 :: l' =>
      (Z.shiftl b0 24 + Z.shiftl b1 16 + Z.shiftl b2 8 + b3)
        :: words_of_bytes l'
  | _ => []
  end.

(** Message schedule: sixteen words of the block, extended to 64. *)
Fixpoint extend (n : nat) (w : list Z) : list Z :=
  match n with
  | O => w
  | S n' =>
      let t := length w in
      let at_ i := nth (t - i) w 0 in
      extend n'
        (w ++ [add32 (add32 (sigma1 (at_ 2%nat)) (at_ 7%nat))
                     (add32 (sigma0 (at_ 15%nat)) (at_ 16%nat))])
  end.

Definition round (s : state) (kw : Z * Z) : state :=
  let '(k, w) := kw in
  let t1 := add32 (add32 (add32 (hh s) (Sigma1 (he s)))
                         (add32 (Ch (he s) (hf s) (hg s)) k)) w in
  let t2 := add32 (Sigma0 (ha s)) (Maj (ha s) (hb s) (hc s)) in
  State (add32 t1 t2) (ha s) (hb s) (hc s)
        (add32 (hd s) t1) (he s) (hf s) (hg s).

Definition compress (s : state) (block : list Z) : state :=
  let w := extend 48 block in
  let r := fold_left round (combine K w) s in
  State (add32 (ha s) (ha r)) (add32 (hb s) (hb r))
        (add32 (hc s) (hc r)) (add32 (hd s) (hd r))
        (add32 (he s) (he r)) (add32 (hf s) (hf r))
        (add32 (hg s) (hg r)) (add32 (hh s) (hh r)).

Fixpoint blocks (n : nat) (ws : list Z) : list (list Z) :=
  match n with
  | O => []
  | S n' => take 16 ws :: blocks n' (drop 16 ws)
  end.

Definition digest_state (msg : bytes) : state :=
  let ws := words_of_bytes (pad (map byte_to_Z msg)) in
  fold_left compress (blocks (length ws / 16)%nat ws) H0.

Definition hex_digit (x : Z) : ascii :=
  match x with
  | 0 => "0" | 1 => "1" | 2 => "2" | 3 => "3" | 4 => "4" | 5 => "5"
  | 6 => "6" | 7 => "7" | 8 => "8" | 9 => "9" | 10 => "a" | 11 => "b"
  | 12 => "c" | 13 => "d" | 14 => "e" | _ => "f"
  end%char.

Definition nibble (x i : Z) : ascii :=
  hex_digit (Z.land (Z.shiftr x (4 * i)) 15).

Definition hex8 (x : Z) (rest : string) : string :=
  String (nibble x 7) (String (nibble x 6) (String (nibble x 5)
  (String (nibble x 4) (String (nibble x 3) (String (nibble x 2)
  (String (nibble x 1) (String (nibble x 0) rest))))))).

Definition hex_of_state (s : state) : string :=
  hex8 (ha s) (hex8 (hb s) (hex8 (hc s) (hex8 (hd s)
  (hex8 (he s) (hex8 (hf s) (hex8 (hg s) (hex8 (hh s) ""))))))).

(** [hashlib.sha256(msg).hexdigest()] *)
Definition hexdigest (msg : bytes) : string := hex_of_state (digest_state msg).

End SHA256.

(** ** [calculate_file_hash] *)

(** The [hashlib] object is modelled by the bytes it has been fed:
    successive [update] calls are equivalent to one call on the
    concatenation, and [hexdigest] hashes what has been fed so far. *)
Definition hash_update (h : bytes) (chunk : bytes) : bytes := h ++ chunk.

(** [for chunk in iter(lambda: f.read(buffer_size), b""): update(chunk)].
    The loop ends with what has been fed or with the exception of a read;
    [None] is returned when the fuel runs out. *)
Fixpoint hash_loop (fuel : nat) (buffer_size : Z) (rest : bytes) (h : bytes)
  : option (result bytes) :=
  match file_read buffer_size rest with
  | Raise e => Some (Raise e)
  | Ok (chunk, rest') =>
      if is_empty chunk then Some (Ok h)
      else match fuel with
           | O => None
           | S fuel' => hash_loop fuel' buffer_size rest' (hash_update h chunk)
           end
  end.

(** The file is given by its content.  [None] models a call that does
    not return; [calculate_file_hash_returns] shows there is none. *)
Definition calculate_file_hash (content : bytes) (buffer_size : Z)
  : option (result string) :=
  match hash_loop (length content) buffer_size content [] with
  | Some (Ok h) => Some (Ok (SHA256.hexdigest h))
  | Some (Raise e) => Some (Raise e)
  | None => None
  end.

(** ** Text: the [str] methods and built-ins the program uses *)

Local Open Scope string_scope.
Local Open Scope list_scope.
Local Open Scope Z_scope.

Definition LF : ascii := "010"%char.
Definition CR : ascii := "013"%char.

(** [str.isspace] on the code points below 256. *)
Definition py_isspace (c : ascii) : bool :=
  let n := nat_of_ascii c in
  ((9 <=? n) && (n <=? 13) || (28 <=? n) && (n <=? 32)
   || (n =? 133) || (n =? 160))%nat.

Fixpoint lstrip (s : string) : string :=
  match s with
  | String c s' => if py_isspace c then lstrip s' else s
  | EmptyString => EmptyString
  end.

Fixpoint rstrip (s : string) : string :=
  match s with
  | String c s' =>
      match rstrip s' with
      | EmptyString => if py_isspace c then EmptyString else String c EmptyString
      | r => String c r
      end
  | EmptyString => EmptyString
  end.

(** [s.strip()] *)
Definition strip (s : string) : string := rstrip (lstrip s).

(** [s.startswith(p)] *)
Definition startswith (s p : string) : bool := String.prefix p s.

(** [s.endswith(suffix)]: some tail of [s] is [suffix]. *)
Fixpoint endswith (s suffix : string) : bool :=
  String.eqb s suffix ||
  match s with
  | String _ s' => endswith s' suffix
  | EmptyString => false
  end.

(** [s.split(':', 1)[1]]; [None] is the [IndexError] of a line without a
    colon. *)
Fixpoint after_colon (s : string) : option string :=
  match s with
  | String c s' => if Ascii.eqb c ":" then Some s' else after_colon s'
  | EmptyString => None
  end.

(** Iterating over a file opened in text mode: lines end at a line feed,
    a carriage return or the pair of them, each read back as one line
    feed (universal newlines). *)
Fixpoint readlines (s : string) : list string :=
  match s with
  | EmptyString => []
  | String c s' =>
      if Ascii.eqb c LF then String LF EmptyString :: readlines s'
      else if Ascii.eqb c CR then
        match s' with
        | String c' s'' =>
            if Ascii.eqb c' LF then String LF EmptyString :: readlines s''
            else String LF EmptyString :: readlines s'
        | EmptyString => [String LF EmptyString]
        end
      else match readlines s' with
           | l :: ls => String c l :: ls
           | [] => [String c EmptyString]
           end
  end.

Definition digit_value (c : ascii) : option Z :=
  let n := Z.of_nat (nat_of_ascii c) in
  if (48 <=? n) && (n <=? 57) then Some (n - 48) else None.

(** The digits of an integer literal; single underscores may separate
    digits.  [after_digit] tells whether the previous character was one. *)
Fixpoint parse_digits (s : string) (acc : Z) (after_digit : bool) : option Z :=
  match s with
  | EmptyString => if after_digit then Some acc else None
  | String c s' =>
      match digit_value c with
      | Some d => parse_digits s' (10 * acc + d) true
      | None =>
          if Ascii.eqb c "_" && after_digit then parse_digits s' acc false
          else None
      end
  end.

(** [int(s)]; [None] is the [ValueError]. *)
Definition py_int (s : string) : option Z :=
  match strip s with
  | String "+" r => parse_digits r 0 false
  | String "-" r => Z.opp <$> parse_digits r 0 false
  | r => parse_digits r 0 false
  end.

(** [str(n)] for an integer. *)
Definition py_str (n : Z) : string := pretty n.

Fixpoint zeros (n : nat) : string :=
  match n with
  | O => EmptyString
  | S n' => String "0" (zeros n')
  end.

(** [f"{i:03d}"]: zero padding to width three, after the sign. *)
Definition fmt03d (i : Z) : string :=
  if i <? 0 then
    let ds := pretty (- i) in "-" +:+ zeros (2 - String.length ds) +:+ ds
  else
    let ds := pretty i in zeros (3 - String.length ds) +:+ ds.

(** ** Directories *)

Definition directory := list (string * bytes).

(** [os.listdir] *)
Definition listdir (d : directory) : list string := map fst d.

Fixpoint dir_lookup (d : directory) (name : string) : option bytes :=
  match d with
  | (n, c) :: d' => if String.eqb n name then Some c else dir_lookup d' name
  | [] => None
  end.

(** Creating or overwriting a file. *)
Fixpoint dir_write (d : directory) (name : string) (content : bytes) : directory :=
  match d with
  | (n, c) :: d' =>
      if String.eqb n name then (n, content) :: d'
      else (n, c) :: dir_write d' name content
  | [] => [(name, content)]
  end.

(** [os.path.exists] of a file of the directory is [dir_lookup] returning
    a content; [os.path.getsize] and [len] are the length of the content. *)
Definition len (b : bytes) : Z := Z.of_nat (length b).

(** Writing text to a file and reading it back. *)
Definition encode (s : string) : bytes := list_byte_of_string s.
Definition decode (b : bytes) : string := string_of_list_byte b.

Definition part_name (base_name : string) (i : Z) : string :=
  base_name +:+ ".part" +:+ fmt03d i.

Definition info_name (base_name : string) : string := base_name +:+ ".info".

(** ** Operating system errors *)

(** An [OSError] and its [str]. *)
Record os_error := OsError {
  errno : Z; strerror : string; err_filename : string }.

Definition str_os_error (e : os_error) : string :=
  "[Errno " +:+ py_str (errno e) +:+ "] " +:+ strerror e
    +:+ ": '" +:+ err_filename e +:+ "'".

(** ** [split_file] *)

Definition NL : string := String LF EmptyString.

(** The text written to the [.info] file. *)
Definition info_text (base_name : string) (parts : Z) (file_size chunk_size : Z)
    (file_hash : option string) : string :=
  "original_name:" +:+ base_name +:+ NL
  +:+ "parts_count:" +:+ py_str parts +:+ NL
  +:+ "original_size:" +:+ py_str file_size +:+ NL
  +:+ "chunk_size:" +:+ py_str chunk_size +:+ NL
  +:+ match file_hash with
      | Some h => if String.eqb h "" then "" else "original_hash:" +:+ h +:+ NL
      | None => ""
      end.

(** The inner loop, filling one part file:
    [while remaining > 0 and bytes_written < file_size].
    The result is [bytes_written], the unread rest of the source, the
    content of the part and the exception of a read that ended the loop,
    if one did; [None] when the fuel runs out. *)
Fixpoint split_part (fuel : nat) (buffer_size file_size : Z)
    (remaining bytes_written : Z) (rest part : bytes)
  : option (Z * bytes * bytes * option exn) :=
  if (0 <? remaining) && (bytes_written <? file_size) then
    let read_size :=
      Z.min (Z.min buffer_size remaining) (file_size - bytes_written) in
    match file_read read_size rest with
    | Raise e => Some (bytes_written, rest, part, Some e)
    | Ok (chunk, rest') =>
        if is_empty chunk then Some (bytes_written, rest', part, None)
        else match fuel with
             | O => None
             | S fuel' =>
                 split_part fuel' buffer_size file_size
                   (remaining - len chunk) (bytes_written + len chunk)
                   rest' (part ++ chunk)
             end
    end
  else Some (bytes_written, rest, part, None).

(** The outer loop, [while bytes_written < file_size]: one part file per
    iteration.  The result is the final [part_num], the directory and the
    exception that ended the loop, if one did: the part file that was
    open then is left with what had been written to it. *)
Fixpoint split_parts (fuel : nat) (base_name : string)
    (chunk_size buffer_size file_size : Z)
    (bytes_written part_num : Z) (rest : bytes) (d : directory)
  : option (Z * directory * option exn) :=
  if bytes_written <? file_size then
    match fuel with
    | O => None
    | S fuel' =>
        match split_part (length rest) buffer_size file_size
                chunk_size bytes_written rest [] with
        | Some (bytes_written', rest', part, None) =>
            split_parts fuel' base_name chunk_size buffer_size file_size
              bytes_written' (part_num + 1) rest'
              (dir_write d (part_name base_name part_num) part)
        | Some (_, _, part, Some e) =>
            Some (part_num, dir_write d (part_name base_name part_num) part,
                  Some e)
        | None => None
        end
    end
  else Some (part_num, d, None).

Inductive split_outcome :=
| SplitNotFound
| SplitEmpty
| SplitDone (parts_dir : directory)
| SplitRaised (e : exn) (parts_dir : directory)
| SplitDiverges.

(** [source] is the content of [file_path], if the file exists;
    [base_name] its base name; [d0] what the directory
    [{base_name}_parts] holds before the call (nothing when it is
    created by [os.makedirs]).  [fuel] bounds the iterations of the outer
    loop. *)
Definition split_file_fuel (fuel : nat) (source : option bytes)
    (base_name : string) (chunk_size : Z) (verify_hash : bool)
    (buffer_size : Z) (d0 : directory) : split_outcome :=
  match source with
  | None => SplitNotFound
  | Some content =>
      let file_size := len content in
      if file_size =? 0 then SplitEmpty
      else
        match (if verify_hash
               then match calculate_file_hash content 8192 with
                    | Some (Ok h) => Some (Ok (Some h))
                    | Some (Raise e) => Some (Raise e)
                    | None => None
                    end
               else Some (Ok None)) with
        | None => SplitDiverges
        | Some (Raise e) => SplitRaised e d0
        | Some (Ok file_hash) =>
            match split_parts fuel base_name chunk_size buffer_size
                    file_size 0 1 content d0 with
            | None => SplitDiverges
            | Some (_, d, Some e) => SplitRaised e d
            | Some (part_num, d, None) =>
                SplitDone
                  (dir_write d (info_name base_name)
                     (encode (info_text base_name (part_num - 1) file_size
                                chunk_size file_hash)))
            end
        end
  end.

Definition split_file (source : option bytes) (base_name : string)
    (chunk_size : Z) (verify_hash : bool) (buffer_size : Z) (d0 : directory)
  : split_outcome :=
  split_file_fuel (length (default [] source)) source base_name chunk_size
    verify_hash buffer_size d0.

(** ** The messages of the reassembly queue *)

(** The tuples [(part_num, position, data, error)] put on the queue. *)
Record message := Message {
  msg_part : Z;
  msg_position : option Z;
  msg_data : option bytes;
  msg_error : option string }.

Definition data_msg (part_num position : Z) (chunk : bytes) : message :=
  Message part_num (Some position) (Some chunk) None.
Definition completed_msg (part_num : Z) : message :=
  Message part_num None None (Some "COMPLETED").
Definition failed_msg (part_num : Z) (error : string) : message :=
  Message part_num None None (Some error).

(** How the writer classifies a message: [error == "COMPLETED"], then
    [if error:]. *)
Definition is_completed (m : message) : bool :=
  match msg_error m with
  | Some e => String.eqb e "COMPLETED"
  | None => false
  end.

Definition is_failed (m : message) : bool :=
  match msg_error m with
  | Some e => negb (String.eqb e "COMPLETED") && negb (String.eqb e "")
  | None => false
  end.

Definition is_terminal (m : message) : bool := is_completed m || is_failed m.

(** ** [read_part_worker_streaming] *)

Record part_info := PartInfo {
  pi_num : Z;
  pi_filename : string;
  pi_position : Z;
  pi_size : Z }.

(** What can fail once the part file is open: the read that follows
    [reads] successful ones raises [e], or the [print] that follows the
    [COMPLETED] put raises an exception whose [str] is [error]. *)
Inductive fault :=
| ReadFails (reads : nat) (e : os_error)
| PrintFails (error : string).

(** What the reader finds when it opens and reads its part file: the
    [open] raises, or the file opens with some content and, optionally,
    a fault. *)
Inductive part_file :=
| OpenFails (e : os_error)
| Opens (content : bytes) (fault : option fault).

Definition next_fault (f : option fault) : option fault :=
  match f with
  | Some (ReadFails (S k) e) => Some (ReadFails k e)
  | other => other
  end.

(** The exceptions that reach the [except Exception] clause. *)
Inductive caught :=
| CaughtOSError (e : os_error)      (** from [open] or [read] *)
| CaughtReadSize                    (** the [ValueError] of [read] *)
| CaughtPrint (error : string).     (** from [print] *)

(** [str(e)] *)
Definition str_caught (c : caught) : string :=
  match c with
  | CaughtOSError e => str_os_error e
  | CaughtReadSize => "read length must be non-negative or -1"
  | CaughtPrint error => error
  end.

(** The loop [while bytes_read < part_size]: the messages put on the
    queue and the exception that ended the loop, if one did. *)
Fixpoint read_part_loop (fuel : nat) (buffer_size : Z) (p : part_info)
    (bytes_read : Z) (rest : bytes) (f : option fault)
  : option (list message * option caught) :=
  if bytes_read <? pi_size p then
    match file_read (Z.min buffer_size (pi_size p - bytes_read)) rest, f with
    | Raise _, _ => Some ([], Some CaughtReadSize)
    | Ok _, Some (ReadFails O e) => Some ([], Some (CaughtOSError e))
    | Ok (chunk, rest'), _ =>
        if is_empty chunk then Some ([], None)
        else match fuel with
             | O => None
             | S fuel' =>
                 let chunk_position := pi_position p + bytes_read in
                 match read_part_loop fuel' buffer_size p
                         (bytes_read + len chunk) rest' (next_fault f) with
                 | Some (msgs, r) =>
                     Some (data_msg (pi_num p) chunk_position chunk :: msgs, r)
                 | None => None
                 end
             end
    end
  else Some ([], None).

(** The body of the [try]: the messages it puts on the queue and the
    exception that leaves it, if one does.  The [print] that ends it
    comes after the [COMPLETED] put. *)
Definition read_part_try (p : part_info) (f : part_file) (buffer_size : Z)
  : option (list message * option caught) :=
  match f with
  | OpenFails e => Some ([], Some (CaughtOSError e))
  | Opens content fault =>
      match read_part_loop (length content) buffer_size p 0 content fault with
      | Some (msgs, None) =>
          Some (msgs ++ [completed_msg (pi_num p)],
                match fault with
                | Some (PrintFails error) => Some (CaughtPrint error)
                | _ => None
                end)
      | other => other
      end
  end.

(** The messages one reader puts on the queue, in order: those of the
    [try] and, after an exception, that of the [except] clause. *)
Definition read_part_worker_streaming (p : part_info) (f : part_file)
    (buffer_size : Z) : option (list message) :=
  match read_part_try p f buffer_size with
  | Some (msgs, None) => Some msgs
  | Some (msgs, Some e) =>
      Some (msgs ++ [failed_msg (pi_num p) (str_caught e)])
  | None => None
  end.

(** ** [write_part_worker_streaming] *)

(** [output.seek(pos); output.write(data)] on a file opened ['r+b']:
    a gap past the end of the file is filled with zero bytes, and writing
    nothing leaves the file as it is. *)
Definition write_at (out : bytes) (pos : nat) (data : bytes) : bytes :=
  if is_empty data then out
  else take pos out ++ replicate (pos - length out) x00
         ++ data ++ drop (pos + length data) out.

(** What [write_queue.get(timeout=30)] does: a message arrives in time,
    or [queue.Empty] is raised. *)
Inductive queue_event :=
| Arrives (m : message)
| Empty.

Inductive log_entry :=
| LogPartDone (part_num completed total : Z)
| LogPartError (part_num : Z) (error : string)
| LogTimeout
| LogWritten (completed total : Z).

Inductive writer_end :=
| Counted            (** the loop ended on [completed_parts = total_parts] *)
| TimedOut           (** [break] on [queue.Empty] *)
| WriterRaised (e : exn).

Record writer_result := WriterResult {
  w_end : writer_end;
  w_output : bytes;
  w_completed : Z;
  w_log : list log_entry;
  w_unread : list queue_event }.

(** The loop [while completed_parts < total_parts].  A queue on which
    nothing arrives any more raises [queue.Empty] once the timeout has
    passed, so the end of [events] is read as [Empty]. *)
Fixpoint writer_loop (events : list queue_event) (total_parts : Z)
    (output : bytes) (completed_parts : Z) (log : list log_entry)
  : writer_result :=
  if completed_parts <? total_parts then
    match events with
    | Arrives m :: events' =>
        if is_completed m then
          writer_loop events' total_parts output (completed_parts + 1)
            (log ++ [LogPartDone (msg_part m) (completed_parts + 1) total_parts])
        else if is_failed m then
          writer_loop events' total_parts output completed_parts
            (log ++ [LogPartError (msg_part m) (default "" (msg_error m))])
        else
          match msg_position m, msg_data m with
          | Some position, Some data =>
              if position <? 0 then
                WriterResult (WriterRaised OSError) output completed_parts
                  log events'
              else
                writer_loop events' total_parts
                  (write_at output (Z.to_nat position) data)
                  completed_parts log
          | _, _ =>
              WriterResult (WriterRaised TypeError) output completed_parts
                log events'
          end
    | Empty :: events' =>
        WriterResult TimedOut output completed_parts
          (log ++ [LogTimeout; LogWritten completed_parts total_parts]) events'
    | [] =>
        WriterResult TimedOut output completed_parts
          (log ++ [LogTimeout; LogWritten completed_parts total_parts]) []
    end
  else
    WriterResult Counted output completed_parts
      (log ++ [LogWritten completed_parts total_parts]) events.

Definition write_part_worker_streaming (output : bytes)
    (events : list queue_event) (total_parts : Z) : writer_result :=
  writer_loop events total_parts output 0 [].

(** ** Reading the [.info] file (the same code in both join functions) *)

Record manifest := Manifest {
  original_name : option string;
  parts_count : Z;
  original_size : Z;
  chunk_size : Z;
  original_hash : option string }.

(** [line.split(':', 1)[1].strip()] *)
Definition field (line : string) : result string :=
  let* v := of_option IndexError (after_colon line) in Ok (strip v).

Definition int_field (line : string) : result Z :=
  let* v := field line in of_option ValueError (py_int v).

(** The body of [for line in f]. *)
Definition parse_line (m : manifest) (line : string) : result manifest :=
  if startswith line "original_name:" then
    let* v := field line in
    Ok (Manifest (Some v) (parts_count m) (original_size m) (chunk_size m)
          (original_hash m))
  else if startswith line "parts_count:" then
    let* n := int_field line in
    Ok (Manifest (original_name m) n (original_size m) (chunk_size m)
          (original_hash m))
  else if startswith line "original_size:" then
    let* n := int_field line in
    Ok (Manifest (original_name m) (parts_count m) n (chunk_size m)
          (original_hash m))
  else if startswith line "chunk_size:" then
    let* n := int_field line in
    Ok (Manifest (original_name m) (parts_count m) (original_size m) n
          (original_hash m))
  else if startswith line "original_hash:" then
    let* v := field line in
    Ok (Manifest (original_name m) (parts_count m) (original_size m)
          (chunk_size m) (Some v))
  else Ok m.

Fixpoint parse_lines (lines : list string) (m : manifest) : result manifest :=
  match lines with
  | line :: lines' => let* m' := parse_line m line in parse_lines lines' m'
  | [] => Ok m
  end.

Definition parse_info (text : string) : result manifest :=
  parse_lines (readlines text) (Manifest None 0 0 0 None).

(** Truthiness of a string that may be [None]. *)
Definition truthy (s : option string) : bool :=
  match s with
  | Some s => negb (String.eqb s "")
  | None => false
  end.

Inductive join_outcome :=
| DirNotFound
| InfoNotFound
| InfoFormatError
| PartNotFound (part_filename : string)
| Assembled (size : Z) (integrity : option bool)
| Raised (e : exn)
| NoReturn.

(** From the existence check of the directory to the check
    [if not original_name or parts_count == 0]: the outcome that ends the
    call, or the directory, the manifest and the original name. *)
Definition load_info (parts_directory : option directory)
  : join_outcome + (directory * manifest * string) :=
  match parts_directory with
  | None => inl DirNotFound
  | Some d =>
      match filter (fun f => endswith f ".info" = true) (listdir d) with
      | [] => inl InfoNotFound
      | info_file :: _ =>
          match dir_lookup d info_file with
          | None => inl (Raised OSError)
          | Some content =>
              match parse_info (decode content) with
              | Raise e => inl (Raised e)
              | Ok m =>
                  match original_name m with
                  | Some name =>
                      if String.eqb name "" || (parts_count m =? 0)
                      then inl InfoFormatError
                      else inr (d, m, name)
                  | None => inl InfoFormatError
                  end
              end
          end
      end
  end.

(** [if not output_file: output_file = original_name] *)
Definition resolve_output (output_file : option string) (name : string)
  : string :=
  if truthy output_file then default name output_file else name.

Record join_result := JoinResult {
  j_outcome : join_outcome;
  j_path : option string;     (** the output path, once it is resolved *)
  j_output : option bytes }.  (** the output file, if there is one *)

(** The integrity check that ends both functions. *)
Definition verify (m : manifest) (output : bytes) : join_outcome :=
  if truthy (original_hash m) then
    match calculate_file_hash output 8192 with
    | Some (Ok current_hash) =>
        Assembled (len output)
          (Some (String.eqb current_hash (default "" (original_hash m))))
    | Some (Raise e) => Raised e
    | None => NoReturn
    end
  else Assembled (len output) None.

(** ** [join_files_multithreaded_streaming] *)

(** [for i in range(1, parts_count + 1)]: the name of the first missing
    part, or the list [part_infos]. *)
Fixpoint part_infos_loop (d : directory) (name : string) (chunk_size : Z)
    (indices : list Z) : string + list part_info :=
  match indices with
  | i :: indices' =>
      let part_filename := part_name name i in
      match dir_lookup d part_filename with
      | None => inl part_filename
      | Some content =>
          match part_infos_loop d name chunk_size indices' with
          | inl missing => inl missing
          | inr infos =>
              inr (PartInfo i part_filename ((i - 1) * chunk_size)
                     (len content) :: infos)
          end
      end
  | [] => inr []
  end.

(** One step of the run of the threads: reader [i] puts its next message
    on the queue and the writer takes it, or nothing arrives for as long
    as the writer waits, or [writer_thread.join(timeout=60)] returns
    before the writer has finished. *)
Inductive sched_step :=
| Put (reader : nat)
| Stall
| JoinTimeout.

(** What the writer takes from the queue filled by readers running side
    by side, up to the moment the join goes on to report the file.  A
    step naming a reader that has nothing left is skipped; when [sched]
    ends the remaining messages follow reader by reader.  After
    [JoinTimeout] the join no longer waits: what the writer takes later
    is not part of the file the join reports. *)
Fixpoint interleave (sched : list sched_step) (streams : list (list message))
  : list queue_event :=
  match sched with
  | Put i :: sched' =>
      match streams !! i with
      | Some (x :: xs) => Arrives x :: interleave sched' (<[i := xs]> streams)
      | _ => interleave sched' streams
      end
  | Stall :: sched' => Empty :: interleave sched' streams
  | JoinTimeout :: _ => []
  | [] => map Arrives (concat streams)
  end.

(** The message stream of every reader, each part file read as the
    directory has it. *)
Fixpoint reader_streams (d : directory) (buffer_size : Z)
    (infos : list part_info) : option (list (list message)) :=
  match infos with
  | p :: infos' =>
      let f := match dir_lookup d (pi_filename p) with
               | Some content => Opens content None
               | None => OpenFails (OsError 2 "No such file or directory"
                                      (pi_filename p))
               end in
      match read_part_worker_streaming p f buffer_size,
            reader_streams d buffer_size infos' with
      | Some s, Some ss => Some (s :: ss)
      | _, _ => None
      end
  | [] => Some []
  end.

(** [sched] is the run of the readers as the writer sees it; [out0] is
    the output file before the call. *)
Definition join_files_multithreaded_streaming
    (parts_directory : option directory) (output_file : option string)
    (max_workers : option Z) (buffer_size : Z)
    (sched : list sched_step) (out0 : option bytes) : join_result :=
  match load_info parts_directory with
  | inl stop => JoinResult stop None out0
  | inr (d, m, name) =>
      let path := Some (resolve_output output_file name) in
      if original_size m <? 0 then JoinResult (Raised OSError) path (Some [])
      else
        let output := replicate (Z.to_nat (original_size m)) x00 in
        match part_infos_loop d name (chunk_size m)
                (seqZ 1 (parts_count m)) with
        | inl missing => JoinResult (PartNotFound missing) path (Some output)
        | inr part_infos =>
            if match max_workers with Some w => w <=? 0 | None => false end
            then JoinResult (Raised ValueError) path (Some output)
            else
              match reader_streams d buffer_size part_infos with
              | None => JoinResult NoReturn path (Some output)
              | Some streams =>
                  let w := write_part_worker_streaming output
                             (interleave sched streams)
                             (parts_count m) in
                  JoinResult (verify m (w_output w)) path (Some (w_output w))
              end
        end
  end.

(** ** [join_files_single_streaming] *)

(** [while True: chunk = part_file.read(buffer_size) ...]: the output
    and the position of its file object after the copy, and the
    exception of a read that ended it, if one did. *)
Fixpoint copy_loop (fuel : nat) (buffer_size : Z) (rest : bytes)
    (output : bytes) (pos : nat) : option (bytes * nat * option exn) :=
  match file_read buffer_size rest with
  | Raise e => Some (output, pos, Some e)
  | Ok (chunk, rest') =>
      if is_empty chunk then Some (output, pos, None)
      else match fuel with
           | O => None
           | S fuel' =>
               copy_loop fuel' buffer_size rest'
                 (write_at output pos chunk) (pos + length chunk)%nat
           end
  end.

(** [for i in range(1, parts_count + 1)]: the outcome that ends the call
    early, if any, and the output file. *)
Fixpoint single_loop (d : directory) (name : string) (chunk_size : Z)
    (buffer_size : Z) (indices : list Z) (output : bytes)
  : option join_outcome * bytes :=
  match indices with
  | i :: indices' =>
      let part_filename := part_name name i in
      match dir_lookup d part_filename with
      | None => (Some (PartNotFound part_filename), output)
      | Some content =>
          let position := (i - 1) * chunk_size in
          if position <? 0 then (Some (Raised OSError), output)
          else
            match copy_loop (length content) buffer_size content output
                    (Z.to_nat position) with
            | None => (Some NoReturn, output)
            | Some (output', _, Some e) => (Some (Raised e), output')
            | Some (output', _, None) =>
                single_loop d name chunk_size buffer_size indices' output'
            end
      end
  | [] => (None, output)
  end.

Definition join_files_single_streaming
    (parts_directory : option directory) (output_file : option string)
    (buffer_size : Z) (out0 : option bytes) : join_result :=
  match load_info parts_directory with
  | inl stop => JoinResult stop None out0
  | inr (d, m, name) =>
      let path := Some (resolve_output output_file name) in
      if original_size m <? 0 then JoinResult (Raised OSError) path (Some [])
      else
        let output := replicate (Z.to_nat (original_size m)) x00 in
        match single_loop d name (chunk_size m) buffer_size
                (seqZ 1 (parts_count m)) output with
        | (Some stop, output') => JoinResult stop path (Some output')
        | (None, output') => JoinResult (verify m output') path (Some output')
        end
  end.

(** ** [main] *)

(** The namespace [parser.parse_args()] returns, by sub-command.  A path
    is given by what it names: the file to split by its content, if the
    file exists, and by its base name; the parts directory by what it
    holds, if it exists. *)
Inductive arguments :=
| SplitArgs (file : option bytes) (base_name : string) (size : Z)
    (verify_hash : bool) (buffer_size : Z)
| JoinArgs (parts_directory : option directory) (output : option string)
    (threads : Z) (buffer_size : Z)
| NoCommand.

Inductive main_result :=
| SplitRan (r : split_outcome)
| JoinRan (r : join_result)
| HelpPrinted.

(** The dispatch on [args.command].  [d0], [sched] and [out0] are what
    the function called finds: the parts directory before a split, the
    run of the readers and the output file before a join. *)
Definition main (args : arguments) (d0 : directory)
    (sched : list sched_step) (out0 : option bytes) : main_result :=
  match args with
  | SplitArgs file base_name size verify_hash buffer_size =>
      SplitRan (split_file file base_name size verify_hash buffer_size d0)
  | JoinArgs parts_directory output threads buffer_size =>
      if threads =? 0 then
        JoinRan (join_files_single_streaming parts_directory output
                   buffer_size out0)
      else
        JoinRan (join_files_multithreaded_streaming parts_directory output
                   (Some threads) buffer_size sched out0)
  | NoCommand => HelpPrinted
  end.


(** ** Vocabulary of the statements *)

Definition is_hex_char (c : ascii) : bool :=
  let n := nat_of_ascii c in
  ((48 <=? n) && (n <=? 57) || (97 <=? n) && (n <=? 102))%nat.

Fixpoint string_forall (P : ascii -> bool) (s : string) : bool :=
  match s with
  | String c s' => P c && string_forall P s'
  | EmptyString => true
  end.


(** The number of [COMPLETED] messages among the events read. *)
Fixpoint completed_count (events : list queue_event) : Z :=
  match events with
  | Arrives m :: events' =>
      (if is_completed m then 1 else 0) + completed_count events'
  | Empty :: events' => completed_count events'
  | [] => 0
  end.

(** Part [i] has a terminal message, of either kind, among the events. *)
Definition terminal_seen (events : list queue_event) (i : Z) : Prop :=
  exists m, In (Arrives m) events /\ is_terminal m = true /\ msg_part m = i.


(** Some line of the manifest starts with [key]. *)
Definition has_key (text key : string) : bool :=
  existsb (fun line => startswith line key) (readlines text).

(** A line the parser passes to [int], and on which [int] raises. *)
Definition int_key (line : string) : bool :=
  startswith line "parts_count:" || startswith line "original_size:"
  || startswith line "chunk_size:".

Definition bad_int_line (line : string) : bool :=
  int_key line &&
  match int_field line with
  | Raise _ => true
  | Ok _ => false
  end.

Definition has_bad_int (text : string) : bool :=
  existsb bad_int_line (readlines text).

(** The first [.info] file of a directory, as [os.listdir] orders it. *)
Definition info_file_of (d : directory) : option string :=
  head (filter (fun f => endswith f ".info" = true) (listdir d)).


(** The part files [ps], written under the numbers [part_num],
    [part_num + 1], ... *)
Fixpoint write_parts (d : directory) (base_name : string) (part_num : Z)
    (ps : list bytes) : directory :=
  match ps with
  | p :: ps' =>
      write_parts (dir_write d (part_name base_name part_num) p) base_name
        (part_num + 1) ps'
  | [] => d
  end.

(** [ceil(a / b)] for a positive [b]. *)
Definition ceil_div (a b : Z) : Z := (a + b - 1) / b.

(** A directory that holds a manifest without sizes and its one part. *)
Definition dir_without_sizes : directory :=
  [ ("a.info", encode ("original_name:a" +:+ NL +:+ "parts_count:1" +:+ NL));
    ("a.part001", ["x"%byte]) ].


(** A file name that survives the manifest: not empty, no white space at
    either end, no line break inside. *)
Definition no_newline (s : string) : bool :=
  string_forall (fun c => negb (Ascii.eqb c LF) && negb (Ascii.eqb c CR)) s.


Definition is_digit (c : ascii) : bool :=
  match digit_value c with
  | Some _ => true
  | None => false
  end.


Fixpoint last_char (s : string) : option ascii :=
  match s with
  | String c EmptyString => Some c
  | String _ s' => last_char s'
  | EmptyString => None
  end.


(** No part is empty, and all parts but the last hold [c] bytes. *)
Fixpoint full_but_last (c : Z) (ps : list bytes) : Prop :=
  match ps with
  | p :: ps' => p <> [] /\ (ps' = [] \/ len p = c) /\ full_but_last c ps'
  | [] => True
  end.

(** What [split_file] leaves in the directory for the parts [ps]. *)
Definition split_dir (d0 : directory) (base_name : string) (ps : list bytes)
    (file_size chunk_size : Z) (file_hash : option string) : directory :=
  dir_write (write_parts d0 base_name 1 ps) (info_name base_name)
    (encode (info_text base_name (Z.of_nat (length ps)) file_size chunk_size
               file_hash)).


(** The entry of [part_infos] for part [i] of a directory. *)
Definition info_of (d : directory) (name : string) (chunk_size : Z) (i : Z)
  : part_info :=
  PartInfo i (part_name name i) ((i - 1) * chunk_size)
    (len (default [] (dir_lookup d (part_name name i)))).


(** A file made long enough to hold [n] bytes, by zero bytes at its end. *)
Definition pad (n : nat) (out : bytes) : bytes :=
  out ++ replicate (n - length out) x00.

(** Writing [data] at [pos], one byte at a time. *)
Fixpoint byte_writes (pos : nat) (data : bytes) : list (nat * byte) :=
  match data with
  | b :: data' => (pos, b) :: byte_writes (S pos) data'
  | [] => []
  end.

Definition write_byte (out : bytes) (w : nat * byte) : bytes :=
  write_at out w.1 [w.2].

Definition apply_writes (out : bytes) (ws : list (nat * byte)) : bytes :=
  foldl write_byte out ws.



(** The byte writes a message makes the writer do. *)
Definition msg_writes (m : message) : list (nat * byte) :=
  if is_terminal m then []
  else match msg_position m, msg_data m with
       | Some pos, Some data => byte_writes (Z.to_nat pos) data
       | _, _ => []
       end.

(** A data chunk as the readers send them. *)
Definition data_ok (m : message) : Prop :=
  is_terminal m = false /\
  exists pos data, msg_position m = Some pos /\ 0 <= pos /\
                   msg_data m = Some data.







(** ** Sample inputs *)

Definition sample_content : bytes := ["a"%byte; "b"%byte; "c"%byte].

(** What splitting [sample_content], named [f], by chunks of two bytes
    leaves in a new directory. *)
Definition dir_sample : directory :=
  [ ("f.part001", ["a"%byte; "b"%byte]);
    ("f.part002", ["c"%byte]);
    ("f.info",
     encode ("original_name:f" +:+ NL +:+ "parts_count:2" +:+ NL
             +:+ "original_size:3" +:+ NL +:+ "chunk_size:2" +:+ NL)) ].

Definition manifest_sample : manifest := Manifest (Some "f") 2 3 2 None.

(** The same directory without its second part. *)
Definition dir_missing_part : directory :=
  [ ("f.part001", ["a"%byte; "b"%byte]);
    ("f.info",
     encode ("original_name:f" +:+ NL +:+ "parts_count:2" +:+ NL
             +:+ "original_size:3" +:+ NL +:+ "chunk_size:2" +:+ NL)) ].

(** A directory whose manifest has no [parts_count]. *)
Definition dir_without_count : directory :=
  [ ("a.info", encode ("original_name:a" +:+ NL));
    ("a.part001", ["x"%byte]) ].


(** What splitting the two bytes [ab], in a file named with a leading
    space, by chunks of one byte leaves in a new directory. *)
Definition dir_padded_name : directory :=
  [ (" f.part001", ["a"%byte]);
    (" f.part002", ["b"%byte]);
    (" f.info",
     encode ("original_name: f" +:+ NL +:+ "parts_count:2" +:+ NL
             +:+ "original_size:2" +:+ NL +:+ "chunk_size:1" +:+ NL)) ].


(** ** Vocabulary of the further properties *)

(** Data messages of one part for the chunks [chunks], the first at
    [position] and each next one where the previous ended. *)
Fixpoint chunk_msgs (part_num position : Z) (chunks : list bytes)
  : list message :=
  match chunks with
  | c :: chunks' =>
      data_msg part_num position c
      :: chunk_msgs part_num (position + len c) chunks'
  | [] => []
  end.

(** The same event with another part number in its message. *)
Definition renumber (f : Z -> Z) (ev : queue_event) : queue_event :=
  match ev with
  | Arrives m =>
      Arrives (Message (f (msg_part m)) (msg_position m) (msg_data m)
                 (msg_error m))
  | Empty => Empty
  end.


(** No message of the events carries data. *)
Definition no_data (events : list queue_event) : Prop :=
  Forall (fun ev => match ev with
                    | Arrives m => is_terminal m = true
                    | Empty => True
                    end) events.


(** A data message writes inside a file of [size] bytes. *)
Definition in_bounds (size : Z) (ev : queue_event) : Prop :=
  match ev with
  | Arrives m =>
      forall position data,
        msg_position m = Some position -> msg_data m = Some data ->
        position + len data <= size
  | Empty => True
  end.

(** Two chunks for a file of three bytes, the second sent first. *)
Definition events_sample : list queue_event :=
  [ Arrives (data_msg 2 2 ["c"%byte]);
    Arrives (data_msg 1 0 ["a"%byte; "b"%byte]);
    Arrives (completed_msg 1);
    Arrives (completed_msg 2) ].

(** ** Sample inputs of the further properties *)

(** A parts directory left by an earlier split of a longer file named
    [f], with a file that belongs to no split. *)
Definition dir_stale : directory :=
  [ ("f.part001", ["x"%byte]);
    ("f.part002", ["y"%byte]);
    ("f.part003", ["z"%byte]);
    ("notes.txt", ["n"%byte]) ].

(** The same directory after [sample_content], named [f], is split into
    it by chunks of two bytes. *)
Definition dir_resplit : directory :=
  [ ("f.part001", ["a"%byte; "b"%byte]);
    ("f.part002", ["c"%byte]);
    ("f.part003", ["z"%byte]);
    ("notes.txt", ["n"%byte]);
    ("f.info",
     encode ("original_name:f" +:+ NL +:+ "parts_count:2" +:+ NL
             +:+ "original_size:3" +:+ NL +:+ "chunk_size:2" +:+ NL)) ].

(** A directory whose manifest counts a negative number of parts. *)
Definition dir_negative_count : directory :=
  [ ("a.info",
     encode ("original_name:a" +:+ NL +:+ "parts_count:-3" +:+ NL
             +:+ "original_size:2" +:+ NL +:+ "chunk_size:1" +:+ NL));
    ("a.part001", ["x"%byte]) ].

Definition manifest_negative_count : manifest :=
  Manifest (Some "a") (-3) 2 1 None.

(** [dir_sample] with a part beyond the count of its manifest and a file
    that belongs to no split. *)
Definition dir_sample_extra : directory :=
  [ ("f.part001", ["a"%byte; "b"%byte]);
    ("notes.txt", ["n"%byte]);
    ("f.part002", ["c"%byte]);
    ("f.part003", ["z"%byte]);
    ("f.info",
     encode ("original_name:f" +:+ NL +:+ "parts_count:2" +:+ NL
             +:+ "original_size:3" +:+ NL +:+ "chunk_size:2" +:+ NL)) ].

(** ** Proof steps *)

(** A manifest line of one key does not start with another key. *)
Ltac other_key :=
  match goal with
  | |- context [String.prefix ?k ?line] =>
      assert (String.prefix k line = false) as -> by reflexivity
  end.


(** The messages of two readers, the first of which fails to open its
    part. *)
Definition events_failed : list queue_event :=
  [ Arrives (failed_msg 1 "[Errno 13] Permission denied: 'f.part001'");
    Arrives (data_msg 2 2 ["c"%byte]);
    Arrives (completed_msg 2) ].

(** What the writer has received of part 2 when nothing more arrives. *)
Definition received_sample : list message :=
  [ data_msg 2 2 ["c"%byte]; completed_msg 2 ].



(** * Properties *)

(** ** Reading a file *)

Lemma file_read_app n rest chunk rest' :
  file_read n rest = Ok (chunk, rest') -> chunk ++ rest' = rest.
Proof.
  unfold file_read. destruct (n <? -1); [done|].
  destruct (n <? 0); intros [= <- <-].
  - apply app_nil_r.
  - apply take_drop.
Qed.

Lemma file_read_raises n rest : n < -1 -> file_read n rest = Raise ValueError.
Proof. intros Hn. unfold file_read. by destruct (n <? -1) eqn:E; [|lia]. Qed.

Lemma file_read_raise_inv n rest e :
  file_read n rest = Raise e -> n < -1 /\ e = ValueError.
Proof.
  unfold file_read. destruct (n <? -1) eqn:E.
  - intros [= <-]. split; [lia|done].
  - by destruct (n <? 0).
Qed.

Lemma file_read_returns n rest :
  -1 <= n -> exists chunk rest', file_read n rest = Ok (chunk, rest').
Proof.
  intros Hn. unfold file_read. destruct (n <? -1) eqn:E; [lia|].
  destruct (n <? 0); eauto.
Qed.

Lemma file_read_nil n : -1 <= n -> file_read n [] = Ok ([], []).
Proof.
  intros Hn. unfold file_read. destruct (n <? -1) eqn:E; [lia|].
  destruct (n <? 0); [done|]. by rewrite take_nil, drop_nil.
Qed.

Lemma file_read_zero rest : file_read 0 rest = Ok ([], rest).
Proof. done. Qed.

Lemma file_read_progress n rest chunk rest' :
  n <> 0 -> rest <> [] -> file_read n rest = Ok (chunk, rest') ->
  is_empty chunk = false /\ (length rest' < length rest)%nat.
Proof.
  intros Hn Hrest. unfold file_read. destruct (n <? -1); [done|].
  destruct (n <? 0) eqn:Hneg; intros [= <- <-].
  - destruct rest; [done|]. simpl. split; [done|lia].
  - assert (0 < n) by lia.
    destruct rest as [|b rest]; [done|].
    destruct (Z.to_nat n) as [|k] eqn:Hk; [lia|].
    simpl. split; [done|]. rewrite length_drop. lia.
Qed.

Lemma is_empty_true {A} (l : list A) : is_empty l = true -> l = [].
Proof. by destruct l. Qed.

(** ** C9: the digest *)

Lemma hash_loop_feeds_all fuel bs rest h :
  -1 <= bs -> bs <> 0 -> (length rest <= fuel)%nat ->
  hash_loop fuel bs rest h = Some (Ok (h ++ rest)).
Proof.
  intros Hvalid Hbs. revert rest h.
  induction fuel as [|fuel IH]; intros rest h Hlen.
  - destruct rest; [|simpl in Hlen; lia].
    simpl. rewrite file_read_nil by done. simpl. by rewrite app_nil_r.
  - destruct rest as [|b rest].
    { simpl. rewrite file_read_nil by done. simpl. by rewrite app_nil_r. }
    cbn [hash_loop].
    destruct (file_read_returns bs (b :: rest) Hvalid)
      as (chunk & rest' & Hread).
    rewrite Hread.
    destruct (file_read_progress bs (b :: rest) chunk rest' Hbs ltac:(done) Hread)
      as [-> Hlt].
    rewrite IH by (simpl in *; lia).
    unfold hash_update. rewrite <- app_assoc.
    by rewrite (file_read_app _ _ _ _ Hread).
Qed.

Lemma hash_loop_zero fuel rest h : hash_loop fuel 0 rest h = Some (Ok h).
Proof. by destruct fuel. Qed.

Lemma hash_loop_raises fuel bs rest h :
  bs < -1 -> hash_loop fuel bs rest h = Some (Raise ValueError).
Proof. intros Hbs. destruct fuel; simpl; by rewrite file_read_raises. Qed.

Lemma calculate_file_hash_returns content bs :
  is_Some (calculate_file_hash content bs).
Proof.
  unfold calculate_file_hash.
  destruct (decide (bs = 0)) as [->|Hbs].
  - by rewrite hash_loop_zero.
  - destruct (decide (bs < -1)).
    + by rewrite hash_loop_raises.
    + rewrite hash_loop_feeds_all by (done || lia). done.
Qed.

(** With the default buffer size, which is what the program itself
    uses, the digest is that of the whole content. *)
Lemma calculate_file_hash_default content :
  calculate_file_hash content 8192 = Some (Ok (SHA256.hexdigest content)).
Proof. unfold calculate_file_hash. by rewrite hash_loop_feeds_all. Qed.





(** ** C5: the part reader *)

Lemma is_empty_false_length {A} (l : list A) :
  is_empty l = false -> (0 < length l)%nat.
Proof. destruct l; [done|simpl; lia]. Qed.

Lemma file_read_length n rest chunk rest' :
  file_read n rest = Ok (chunk, rest') ->
  length rest = (length chunk + length rest')%nat.
Proof. intros H. apply file_read_app in H as <-. apply length_app. Qed.

Lemma data_msg_not_terminal part_num position chunk :
  is_terminal (data_msg part_num position chunk) = false.
Proof. reflexivity. Qed.

Lemma str_os_error_not_completed e :
  String.eqb (str_os_error e) "COMPLETED" = false.
Proof. reflexivity. Qed.

Lemma str_os_error_not_empty e : String.eqb (str_os_error e) "" = false.
Proof. reflexivity. Qed.

Lemma failed_msg_is_failed part_num e :
  is_failed (failed_msg part_num (str_os_error e)) = true /\
  is_completed (failed_msg part_num (str_os_error e)) = false.
Proof. split; reflexivity. Qed.

(** The loop returns with the fuel it is given, puts only data chunks on
    the queue, and raises nothing but the fault of its file or the
    [ValueError] of a read size below -1. *)
Lemma read_part_loop_returns fuel bs p bytes_read rest f :
  (length rest <= fuel)%nat ->
  exists msgs raised,
    read_part_loop fuel bs p bytes_read rest f = Some (msgs, raised) /\
    Forall (fun m => is_terminal m = false) msgs /\
    match raised with
    | Some (CaughtOSError e) => exists k, f = Some (ReadFails k e)
    | Some CaughtReadSize => bs < -1
    | Some (CaughtPrint _) => False
    | None => True
    end /\
    (-1 <= bs -> (forall k e, f <> Some (ReadFails k e)) -> raised = None).
Proof.
  revert bytes_read rest f.
  induction fuel as [|fuel IH]; intros br rest f Hlen; cbn [read_part_loop].
  all: destruct (br <? pi_size p) eqn:Hcond; [|by exists [], None].
  all: apply Z.ltb_lt in Hcond.
  all: destruct (file_read (Z.min bs (pi_size p - br)) rest)
         as [[chunk rest']|x] eqn:Hread.
  all: try (apply file_read_raise_inv in Hread as [Hneg _];
            exists [], (Some CaughtReadSize);
            split_and!; [done|done|lia|intros; lia]).
  all: destruct f as [[[|k] e|error]|].
  all: try (exists [], (Some (CaughtOSError e));
            split_and!; [done|done|eauto|];
            intros _ Hf; exfalso; by apply (Hf 0%nat e)).
  all: destruct (is_empty chunk) eqn:Hchunk; [by exists [], None|].
  all: pose proof (file_read_length _ _ _ _ Hread) as Hlens.
  all: apply is_empty_false_length in Hchunk.
  1-3: lia.
  all: cbn [next_fault].
  all: edestruct (IH (br + len chunk) rest')
         as (msgs & raised & -> & Hdata & Hraised & Hnone); [lia|].
  all: eexists (_ :: msgs), raised.
  all: split_and!; [done|by constructor| |].
  - destruct raised as [[e'| |error]|]; try done.
    destruct Hraised as [k' [= -> ->]]. eauto.
  - intros Hbs Hf. exfalso. by apply (Hf (S k) e).
  - destruct raised as [[e'| |error']|]; try done;
      by destruct Hraised as [k' ?].
  - intros Hbs _. by apply Hnone.
  - destruct raised as [[e'| |error']|]; try done;
      by destruct Hraised as [k' ?].
  - intros Hbs _. by apply Hnone.
Qed.

(** As long as its [print] does not fail, the reader returns having put
    on the queue data chunks followed by exactly one terminal message:
    the [COMPLETED] message of its part when no exception left the
    [try], the failure message carrying [str(e)] when [open] or a read
    raised [e]. *)
Lemma reader_one_terminal (p : part_info) (f : part_file) (bs : Z) :
  (forall content error, f <> Opens content (Some (PrintFails error))) ->
  exists data last,
    read_part_worker_streaming p f bs = Some (data ++ [last]) /\
    Forall (fun m => is_terminal m = false) data /\
    (last = completed_msg (pi_num p) \/
     exists e, last = failed_msg (pi_num p) (str_caught e) /\
               is_failed last = true /\ is_completed last = false).
Proof.
  intros Hprint. unfold read_part_worker_streaming.
  destruct f as [e|content f]; simpl.
  - exists [], (failed_msg (pi_num p) (str_os_error e)).
    split_and!; [done|done|]. right. by exists (CaughtOSError e).
  - destruct (read_part_loop_returns (length content) bs p 0 content f)
      as (msgs & raised & -> & Hdata & Hraised & Hnone); [done|].
    destruct raised as [e|]; simpl.
    + exists msgs, (failed_msg (pi_num p) (str_caught e)).
      split_and!; [done|done|]. right. exists e.
      by destruct e as [e| |error].
    + destruct f as [[k e|error]|].
      * exists msgs, (completed_msg (pi_num p)). split_and!; auto.
      * by destruct (Hprint content error).
      * exists msgs, (completed_msg (pi_num p)). split_and!; auto.
Qed.

(** C5.  A part file of three bytes is opened and read without error,
    and the [print] that follows the [COMPLETED] put raises.  The
    [except] clause catches it: the reader has sent the data chunk and
    [COMPLETED], and now sends the failure message too, so that the part
    has two terminal messages, one of each kind. *)
Theorem reader_completed_then_failed :
  let sent :=
    read_part_worker_streaming (PartInfo 1 "f.part001" 0 3)
      (Opens sample_content (Some (PrintFails "I/O operation on closed file.")))
      8192 in
  sent = Some [ data_msg 1 0 sample_content;
                completed_msg 1;
                failed_msg 1 "I/O operation on closed file." ] /\
  is_completed (completed_msg 1) = true /\
  is_failed (failed_msg 1 "I/O operation on closed file.") = true.
Proof. split_and!; reflexivity. Qed.

(** ** C2: the reassembly writer *)

Lemma completed_count_cons ev events :
  completed_count (ev :: events) =
  (match ev with
   | Arrives m => if is_completed m then 1 else 0
   | Empty => 0
   end) + completed_count events.
Proof. by destruct ev. Qed.

Lemma completed_count_nil : completed_count [] = 0.
Proof. reflexivity. Qed.

(** Reading one more message before a run keeps what holds of every
    event the run reads. *)
Lemma writer_reads_step m consumed completed completed' total
    (w : writer_end) :
  completed < total ->
  completed' = completed + (if is_completed m then 1 else 0) ->
  (forall pre ev post, consumed = pre ++ ev :: post ->
     completed' + completed_count pre < total /\
     (ev = Empty -> post = [] /\ w = TimedOut)) ->
  forall pre ev post, Arrives m :: consumed = pre ++ ev :: post ->
    completed + completed_count pre < total /\
    (ev = Empty -> post = [] /\ w = TimedOut).
Proof.
  intros Hlt -> Hreads [|ev0 pre] ev post Heq;
    injection Heq as <- ->.
  - rewrite completed_count_nil. split; [lia|done].
  - destruct (Hreads pre ev post eq_refl) as [Hcount Hempty].
    rewrite completed_count_cons. split; [lia|done].
Qed.

Lemma writer_reads_one ev0 completed total (w : writer_end) :
  completed < total ->
  (ev0 = Empty -> w = TimedOut) ->
  forall pre ev post, [ev0] = pre ++ ev :: post ->
    completed + completed_count pre < total /\
    (ev = Empty -> post = [] /\ w = TimedOut).
Proof.
  intros Hlt Hw [|ev1 pre] ev post Heq.
  - injection Heq as -> <-. rewrite completed_count_nil. split; [lia|auto].
  - by destruct pre.
Qed.

Lemma writer_reads_none completed total (w : writer_end) :
  forall pre ev post, @nil queue_event = pre ++ ev :: post ->
    completed + completed_count pre < total /\
    (ev = Empty -> post = [] /\ w = TimedOut).
Proof. by intros [|ev1 pre] ev post Heq. Qed.

(** The run of the loop from any state: what it reads, what it counts,
    what it logs and how it ends. *)
Lemma writer_loop_run events total output completed log :
  let r := writer_loop events total output completed log in
  exists consumed,
    events = consumed ++ w_unread r /\
    w_completed r = completed + completed_count consumed /\
    (exists log', w_log r = log ++ log') /\
    (forall m, In (Arrives m) consumed -> is_failed m = true ->
       In (LogPartError (msg_part m) (default "" (msg_error m))) (w_log r)) /\
    (forall pre ev post, consumed = pre ++ ev :: post ->
       completed + completed_count pre < total /\
       (ev = Empty -> post = [] /\ w_end r = TimedOut)) /\
    match w_end r with
    | Counted =>
        total <= w_completed r /\
        (consumed = [] \/
         w_completed r = total /\
         exists pre m, consumed = pre ++ [Arrives m] /\ is_completed m = true)
    | TimedOut =>
        w_completed r < total /\
        (consumed = events \/ exists pre, consumed = pre ++ [Empty]) /\
        exists log', w_log r =
          log' ++ [LogTimeout; LogWritten (w_completed r) total]
    | WriterRaised _ =>
        w_completed r < total /\
        exists pre m, consumed = pre ++ [Arrives m] /\ is_terminal m = false
    end.
Proof.
  revert output completed log.
  induction events as [|ev events IH]; intros output completed log;
    cbn [writer_loop]; destruct (completed <? total) eqn:Hlt.
  - exists []. cbn. apply Z.ltb_lt in Hlt.
    split_and!; eauto using writer_reads_none; try lia; try done.
  - exists []. cbn. apply Z.ltb_ge in Hlt.
    split_and!; eauto using writer_reads_none; try lia; try done.
  - apply Z.ltb_lt in Hlt. destruct ev as [m|].
    + destruct (is_completed m) eqn:Hc; [|destruct (is_failed m) eqn:Hf].
      * specialize (IH output (completed + 1)
          (log ++ [LogPartDone (msg_part m) (completed + 1) total])).
        cbv zeta in IH.
        destruct IH as (consumed & Hev & Hcount & Hlog & Hfail & Hreads & Hend).
        exists (Arrives m :: consumed).
        rewrite ?completed_count_cons, ?Hc.
        split_and!.
        -- simpl. by f_equal.
        -- lia.
        -- destruct Hlog as [log' ->]. rewrite <- app_assoc. eauto.
        -- intros m' [[= ->]|Hin] Hf'; [|by apply Hfail].
           unfold is_failed, is_completed in *.
           destruct (msg_error m') as [e|]; [|done].
           rewrite Hc in Hf'. done.
        -- eapply writer_reads_step; [exact Hlt| |exact Hreads].
           by rewrite Hc.
        -- destruct (w_end _).
           ++ destruct Hend as [Hle [->|[Heq (pre & m' & -> & Hm')]]].
              ** split; [done|]. right. cbn [completed_count] in Hcount.
                 split; [lia|]. by exists [], m.
              ** split; [done|]. right. split; [done|].
                 by exists (Arrives m :: pre), m'.
           ++ destruct Hend as (Hle & Hcons & Hlog').
              split_and!; [done| |done].
              destruct Hcons as [->|[pre ->]]; [by left|].
              right. by exists (Arrives m :: pre).
           ++ destruct Hend as (Hle & pre & m' & -> & Hm').
              split; [done|]. by exists (Arrives m :: pre), m'.
      * specialize (IH output completed
          (log ++ [LogPartError (msg_part m) (default "" (msg_error m))])).
        cbv zeta in IH.
        destruct IH as (consumed & Hev & Hcount & Hlog & Hfail & Hreads & Hend).
        exists (Arrives m :: consumed).
        rewrite ?completed_count_cons, ?Hc.
        split_and!.
        -- simpl. by f_equal.
        -- lia.
        -- destruct Hlog as [log' ->]. rewrite <- app_assoc. eauto.
        -- intros m' [[= ->]|Hin] Hf'; [|by apply Hfail].
           destruct Hlog as [log' ->].
           apply in_or_app. left. apply in_or_app. right. by left.
        -- eapply writer_reads_step; [exact Hlt| |exact Hreads].
           rewrite Hc. lia.
        -- destruct (w_end _).
           ++ destruct Hend as [Hle [->|[Heq (pre & m' & -> & Hm')]]].
              ** cbn [completed_count] in Hcount. lia.
              ** split; [done|]. right. split; [done|].
                 by exists (Arrives m :: pre), m'.
           ++ destruct Hend as (Hle & Hcons & Hlog').
              split_and!; [done| |done].
              destruct Hcons as [->|[pre ->]]; [by left|].
              right. by exists (Arrives m :: pre).
           ++ destruct Hend as (Hle & pre & m' & -> & Hm').
              split; [done|]. by exists (Arrives m :: pre), m'.
      * assert (is_terminal m = false) as Hterm
          by (unfold is_terminal; by rewrite Hc, Hf).
        destruct (msg_position m) as [position|], (msg_data m) as [data|];
          [destruct (position <? 0)|..].
        2:{ specialize (IH (write_at output (Z.to_nat position) data)
                          completed log).
            cbv zeta in IH.
            destruct IH
              as (consumed & Hev & Hcount & Hlog & Hfail & Hreads & Hend).
            exists (Arrives m :: consumed).
            rewrite ?completed_count_cons, ?Hc.
            split_and!.
            - simpl. by f_equal.
            - lia.
            - done.
            - intros m' [[= ->]|Hin] Hf'; [congruence|by apply Hfail].
            - eapply writer_reads_step; [exact Hlt| |exact Hreads].
              rewrite Hc. lia.
            - destruct (w_end _).
              + destruct Hend as [Hle [->|[Heq (pre & m' & -> & Hm')]]].
                * cbn [completed_count] in Hcount. lia.
                * split; [done|]. right. split; [done|].
                  by exists (Arrives m :: pre), m'.
              + destruct Hend as (Hle & Hcons & Hlog').
                split_and!; [done| |done].
                destruct Hcons as [->|[pre ->]]; [by left|].
                right. by exists (Arrives m :: pre).
              + destruct Hend as (Hle & pre & m' & -> & Hm').
                split; [done|]. by exists (Arrives m :: pre), m'. }
        all: exists [Arrives m]; cbn;
          rewrite ?completed_count_cons, ?Hc, ?completed_count_nil.
        all: split_and!;
          [done|lia|by exists []; rewrite app_nil_r
          |by intros m' [[= ->]|[]] Hf'; congruence
          |by apply writer_reads_one| |].
        all: try lia.
        all: by exists [], m.
    + exists [Empty]. cbn.
      rewrite ?completed_count_cons, ?completed_count_nil.
      split_and!; [done|lia|eauto|by intros m' [[=]|[]]
                  |by apply writer_reads_one|lia| |eauto].
      right. by exists [].
  - apply Z.ltb_ge in Hlt. exists []. cbn.
    split_and!; [done|lia|eauto|by intros m' []
                |apply writer_reads_none|lia|by left].
Qed.

(** C2, as amended.  The writer reads events until it has counted
    [total_parts] [COMPLETED] messages: it reads an event only while the
    count is below [total_parts].  A failure message is logged and
    skipped: it is not counted and it never ends the run.
    [queue.Empty] ends the run: it is the last event read and the run is
    a timeout.  The run ends in one of three ways: on the count; on
    [queue.Empty], with fewer parts counted than expected and the report
    [completed/total] as the last log entry; or on an exception raised
    by a malformed data message. *)
Theorem writer_counts_completed_only
    (output : bytes) (events : list queue_event) (total_parts : Z) :
  let r := write_part_worker_streaming output events total_parts in
  exists consumed,
    events = consumed ++ w_unread r /\
    w_completed r = completed_count consumed /\
    (forall m, In (Arrives m) consumed -> is_failed m = true ->
       In (LogPartError (msg_part m) (default "" (msg_error m))) (w_log r)) /\
    (forall pre ev post, consumed = pre ++ ev :: post ->
       completed_count pre < total_parts /\
       (ev = Empty -> post = [] /\ w_end r = TimedOut)) /\
    match w_end r with
    | Counted =>
        total_parts <= w_completed r /\
        (consumed = [] \/
         w_completed r = total_parts /\
         exists pre m, consumed = pre ++ [Arrives m] /\ is_completed m = true)
    | TimedOut =>
        w_completed r < total_parts /\
        (consumed = events \/ exists pre, consumed = pre ++ [Empty]) /\
        exists log', w_log r =
          log' ++ [LogTimeout; LogWritten (w_completed r) total_parts]
    | WriterRaised _ =>
        w_completed r < total_parts /\
        exists pre m, consumed = pre ++ [Arrives m] /\ is_terminal m = false
    end.
Proof.
  intros r.
  destruct (writer_loop_run events total_parts output 0 [])
    as (consumed & Hev & Hcount & _ & Hfail & Hreads & Hend).
  exists consumed. subst r. unfold write_part_worker_streaming.
  split_and!; [done|lia|done|done|done].
Qed.

(** C2 as stated fails: with one part expected and its failure message
    read, every part has had a terminal message, yet the writer does not
    leave its loop on the count; it waits for the timeout. *)
Lemma writer_stops_on_every_terminal_fails :
  ~ (forall (output : bytes) (events : list queue_event) (total_parts : Z),
       (forall i, 1 <= i <= total_parts -> terminal_seen events i) ->
       w_end (write_part_worker_streaming output events total_parts)
       = Counted).
Proof.
  intros Hclaim.
  pose (e := OsError 5 "Input/output error" "a.part001").
  specialize (Hclaim [x00] [Arrives (failed_msg 1 (str_os_error e))] 1).
  assert (w_end (write_part_worker_streaming [x00]
            [Arrives (failed_msg 1 (str_os_error e))] 1) = TimedOut) as Hrun
    by reflexivity.
  rewrite Hrun in Hclaim. enough (TimedOut = Counted) by done.
  apply Hclaim. intros i Hi. assert (i = 1) as -> by lia.
  exists (failed_msg 1 (str_os_error e)). split_and!; [by left|done|done].
Qed.

(** ** Loading the manifest and looking for the parts *)

Lemma load_info_stop pd stop :
  load_info pd = inl stop ->
  stop = DirNotFound \/ stop = InfoNotFound \/ stop = InfoFormatError \/
  exists e, stop = Raised e.
Proof.
  unfold load_info. intros H.
  repeat (case_match; simplify_eq); eauto.
Qed.

Lemma verify_outcome m output :
  (exists size integrity, verify m output = Assembled size integrity) \/
  verify m output = NoReturn.
Proof.
  unfold verify. rewrite calculate_file_hash_default.
  destruct (truthy (original_hash m)); eauto.
Qed.



Lemma part_infos_loop_inl d name c indices missing :
  part_infos_loop d name c indices = inl missing ->
  exists i, In i indices /\ missing = part_name name i /\
            dir_lookup d missing = None.
Proof.
  induction indices as [|k indices IH]; simpl; [done|].
  destruct (dir_lookup d (part_name name k)) eqn:Hk.
  - destruct (part_infos_loop d name c indices); [|done].
    intros [= <-]. destruct IH as (i & ? & ? & ?); eauto.
  - intros [= <-]. eauto.
Qed.


(** A read size below -1 ends the copy at its first read. *)
Lemma copy_loop_raises fuel bs rest output pos :
  bs < -1 ->
  copy_loop fuel bs rest output pos = Some (output, pos, Some ValueError).
Proof. intros Hbs. destruct fuel; simpl; by rewrite file_read_raises. Qed.




Lemma In_seqZ i m n : In i (seqZ m n) <-> m <= i < m + n.
Proof. rewrite <- list_elem_of_In. apply elem_of_seqZ. Qed.

(** ** C10: the output file of an aborted concurrent join *)

(** C10.  When the concurrent join ends on a missing part, the manifest
    was loaded, the part is one of its index range, and the output file
    exists: [original_size] zero bytes, written before the parts were
    looked for and left as they are. *)
Theorem concurrent_join_leaves_zero_file
    (parts_directory : option directory) (output_file : option string)
    (max_workers : option Z) (buffer_size : Z) (sched : list sched_step)
    (out0 : option bytes) (missing : string) :
  j_outcome (join_files_multithreaded_streaming parts_directory output_file
               max_workers buffer_size sched out0) = PartNotFound missing ->
  exists d m name i,
    load_info parts_directory = inr (d, m, name) /\
    1 <= i <= parts_count m /\ missing = part_name name i /\
    dir_lookup d missing = None /\
    0 <= original_size m /\
    j_output (join_files_multithreaded_streaming parts_directory output_file
                max_workers buffer_size sched out0)
    = Some (replicate (Z.to_nat (original_size m)) x00) /\
    len (replicate (Z.to_nat (original_size m)) x00) = original_size m.
Proof.
  unfold join_files_multithreaded_streaming.
  destruct (load_info parts_directory) as [stop|[[d m] name]] eqn:Hload.
  { simpl. intros ->.
    apply load_info_stop in Hload as [?|[?|[?|[? ?]]]]; done. }
  destruct (original_size m <? 0) eqn:Hsize; [done|].
  destruct (part_infos_loop d name (chunk_size m) (seqZ 1 (parts_count m)))
    as [missing'|infos] eqn:Hinfos.
  - simpl. intros [= <-].
    apply part_infos_loop_inl in Hinfos as (i & Hin & -> & Hnone).
    apply In_seqZ in Hin.
    exists d, m, name, i. split_and!; try done; try lia.
    unfold len. rewrite length_replicate. lia.
  - repeat case_match; simpl; try done.
    all: match goal with
         | |- verify ?m ?o = _ -> _ =>
             destruct (verify_outcome m o) as [(? & ? & ->)| ->]; done
         end.
Qed.

(** ** C8: joining a directory with a part missing *)


(** ** C3: malformed manifests *)

Lemma prefix_app p s : String.prefix p s = true -> exists r, s = p +:+ r.
Proof.
  revert s. induction p as [|c p IH]; intros s.
  - by exists s.
  - destruct s as [|c' s]; [done|]. simpl.
    destruct (ascii_dec c c') as [<-|]; [|done].
    intros [r ->]%IH. by exists r.
Qed.

Lemma parse_line_cases m line :
  (bad_int_line line = true /\ parse_line m line = Raise ValueError) \/
  (bad_int_line line = false /\
   exists m', parse_line m line = Ok m' /\
     (startswith line "original_name:" = false ->
      original_name m' = original_name m) /\
     (startswith line "parts_count:" = false ->
      parts_count m' = parts_count m)).
Proof.
  unfold parse_line, bad_int_line, int_key.
  destruct (startswith line "original_name:") eqn:H1.
  { apply prefix_app in H1 as [r ->]. right. split; [done|].
    cbn. eexists. split; [done|]. done. }
  destruct (startswith line "parts_count:") eqn:H2.
  { apply prefix_app in H2 as [r ->].
    assert (int_field ("parts_count:" +:+ r) = of_option ValueError (py_int (strip r)))
      as -> by reflexivity.
    destruct (py_int (strip r)); cbn; [right|by left].
    split; [done|]. eexists. split_and!; [done|done|done]. }
  destruct (startswith line "original_size:") eqn:H3.
  { apply prefix_app in H3 as [r ->].
    assert (int_field ("original_size:" +:+ r) = of_option ValueError (py_int (strip r)))
      as -> by reflexivity.
    destruct (py_int (strip r)); cbn; [right|by left].
    split; [done|]. eexists. split_and!; [done|done|done]. }
  destruct (startswith line "chunk_size:") eqn:H4.
  { apply prefix_app in H4 as [r ->].
    assert (int_field ("chunk_size:" +:+ r) = of_option ValueError (py_int (strip r)))
      as -> by reflexivity.
    destruct (py_int (strip r)); cbn; [right|by left].
    split; [done|]. eexists. split_and!; [done|done|done]. }
  destruct (startswith line "original_hash:") eqn:H5.
  { apply prefix_app in H5 as [r ->]. right. split; [done|].
    cbn. eexists. split; [done|]. done. }
  right. split; [done|]. eauto.
Qed.

Lemma parse_lines_cases lines m :
  (existsb bad_int_line lines = true /\
   parse_lines lines m = Raise ValueError) \/
  (existsb bad_int_line lines = false /\
   exists m', parse_lines lines m = Ok m' /\
     (existsb (fun l => startswith l "original_name:") lines = false ->
      original_name m' = original_name m) /\
     (existsb (fun l => startswith l "parts_count:") lines = false ->
      parts_count m' = parts_count m)).
Proof.
  revert m. induction lines as [|line lines IH]; intros m; simpl.
  { right. eauto. }
  destruct (parse_line_cases m line) as [[-> ->]|[-> (m' & -> & Hn & Hc)]].
  { by left. }
  simpl. destruct (IH m') as [[-> ->]|[-> (m'' & -> & Hn' & Hc')]].
  { by left. }
  right. split; [done|]. exists m''. split; [done|].
  split; intros [? ?]%orb_false_elim.
  - rewrite Hn', Hn; done.
  - rewrite Hc', Hc; done.
Qed.

Lemma dir_lookup_listed d name :
  In name (listdir d) -> is_Some (dir_lookup d name).
Proof.
  induction d as [|[n c] d IH]; simpl; [done|].
  destruct (String.eqb n name) eqn:Heq; [eauto|].
  intros [->|Hin]; [|by apply IH].
  by rewrite String.eqb_refl in Heq.
Qed.

Lemma info_file_of_listed d info :
  info_file_of d = Some info -> is_Some (dir_lookup d info).
Proof.
  unfold info_file_of. intros Hhead. apply dir_lookup_listed.
  destruct (filter _ (listdir d)) as [|f fs] eqn:Hf; simplify_eq/=.
  assert (info ∈ filter (fun f => endswith f ".info" = true) (listdir d))
    as Hin by (rewrite Hf; left).
  apply list_elem_of_filter in Hin as [_ Hin]. by apply list_elem_of_In.
Qed.

(** What [load_info] does with a manifest that lacks the name or the
    count, or holds an integer [int] cannot read. *)
Lemma load_info_rejects d info content :
  info_file_of d = Some info -> dir_lookup d info = Some content ->
  has_key (decode content) "original_name:" = false \/
  has_key (decode content) "parts_count:" = false \/
  has_bad_int (decode content) = true ->
  load_info (Some d) =
  inl (if has_bad_int (decode content) then Raised ValueError
       else InfoFormatError).
Proof.
  unfold info_file_of, load_info, has_key, has_bad_int, parse_info.
  intros Hinfo Hcontent Hbad.
  destruct (filter _ (listdir d)) as [|f fs]; simplify_eq/=.
  rewrite Hcontent.
  destruct (parse_lines_cases (readlines (decode content))
              (Manifest None 0 0 0 None))
    as [[-> ->]|[Hnobad (m & -> & Hname & Hcount)]]; [done|].
  rewrite Hnobad in *. simpl in *.
  destruct Hbad as [Hbad|[Hbad|Hbad]]; [| |done].
  - by rewrite (Hname Hbad).
  - rewrite (Hcount Hbad). destruct (original_name m) as [n|]; [|done].
    by rewrite orb_true_r.
Qed.

(** C3, as amended.  When the manifest has no [original_name] line or no
    [parts_count] line, both joins end on the format error; when it holds
    an integer value that [int] cannot read, both end on the uncaught
    [ValueError].  Either way the output file is not touched and no
    output path is resolved. *)
Theorem join_rejects_manifest
    (d : directory) (info : string) (content : bytes)
    (output_file : option string) (max_workers : option Z)
    (buffer_size : Z) (sched : list sched_step) (out0 : option bytes) :
  info_file_of d = Some info -> dir_lookup d info = Some content ->
  has_key (decode content) "original_name:" = false \/
  has_key (decode content) "parts_count:" = false \/
  has_bad_int (decode content) = true ->
  let stop := if has_bad_int (decode content) then Raised ValueError
              else InfoFormatError in
  join_files_single_streaming (Some d) output_file buffer_size out0
  = JoinResult stop None out0 /\
  join_files_multithreaded_streaming (Some d) output_file max_workers
    buffer_size sched out0
  = JoinResult stop None out0.
Proof.
  intros Hinfo Hcontent Hbad stop.
  unfold join_files_single_streaming, join_files_multithreaded_streaming.
  by rewrite (load_info_rejects d info content Hinfo Hcontent Hbad).
Qed.

(** C3 as stated fails: the manifest below has neither [original_size]
    nor [chunk_size], and both joins assemble an output file from it. *)
Lemma join_accepts_manifest_without_sizes :
  info_file_of dir_without_sizes = Some "a.info" /\
  (exists content,
     dir_lookup dir_without_sizes "a.info" = Some content /\
     has_key (decode content) "original_size:" = false /\
     has_key (decode content) "chunk_size:" = false) /\
  join_files_single_streaming (Some dir_without_sizes) None 8192 None
  = JoinResult (Assembled 1 None) (Some "a") (Some ["x"%byte]) /\
  join_files_multithreaded_streaming (Some dir_without_sizes) None None 8192
    [] None
  = JoinResult (Assembled 1 None) (Some "a") (Some ["x"%byte]).
Proof.
  split; [reflexivity|]. split; [|split; vm_compute; reflexivity].
  eexists. split; [reflexivity|]. split; reflexivity.
Qed.

(** ** The splitter *)

Lemma file_read_negative n rest chunk rest' :
  n < 0 -> file_read n rest = Ok (chunk, rest') -> chunk = rest /\ rest' = [].
Proof.
  unfold file_read. intros Hn. destruct (n <? -1); [done|].
  destruct (n <? 0) eqn:E; [|lia].
  by intros [= <- <-].
Qed.

Lemma file_read_bound n rest chunk rest' :
  0 <= n -> file_read n rest = Ok (chunk, rest') -> len chunk <= n.
Proof.
  unfold file_read, len. intros Hn. destruct (n <? -1) eqn:E'; [lia|].
  destruct (n <? 0) eqn:E; [lia|].
  intros [= <- <-]. rewrite length_take. lia.
Qed.

Lemma len_app a b : len (a ++ b) = len a + len b.
Proof. unfold len. rewrite length_app. lia. Qed.

Lemma len_nil_inv b : len b = 0 -> b = [].
Proof. unfold len. destruct b; [done|simpl; lia]. Qed.

(** One run of the inner loop: the part file receives a prefix [p] of
    what is left of the source. *)
Lemma split_part_spec fuel bs S remaining bw rest part :
  -1 <= bs -> bs <> 0 -> bw + len rest = S -> (length rest <= fuel)%nat ->
  exists p rest',
    split_part fuel bs S remaining bw rest part
    = Some (bw + len p, rest', part ++ p, None) /\
    p ++ rest' = rest /\
    (0 < remaining -> rest <> [] -> p <> []) /\
    (remaining <= 0 -> p = []) /\
    (0 < remaining -> len p = remaining \/ rest' = []) /\
    (0 < bs -> 0 <= remaining -> len p <= remaining).
Proof.
  intros Hvalid Hbs. revert remaining bw rest part.
  induction fuel as [|fuel IH]; intros remaining bw rest part HS Hlen.
  - destruct rest; [|simpl in Hlen; lia]. unfold len in HS. simpl in HS.
    exists [], []. simpl.
    destruct ((0 <? remaining) && (bw <? S)) eqn:Hcond; [lia|].
    rewrite Z.add_0_r, app_nil_r. split_and!; try done; eauto.
  - cbn [split_part].
    destruct ((0 <? remaining) && (bw <? S)) eqn:Hcond.
    + apply andb_true_iff in Hcond as [Hrem Hbw].
      apply Z.ltb_lt in Hrem, Hbw.
      set (n := Z.min (Z.min bs remaining) (S - bw)).
      assert (n <> 0) as Hn by lia.
      assert (n < 0 <-> bs < 0) as Hsign by lia.
      assert (0 <= n -> n <= remaining) as Hnrem by lia.
      assert (-1 <= n) as Hnvalid by lia.
      clearbody n.
      destruct (file_read_returns n rest Hnvalid) as (chunk & rest' & Hread).
      rewrite Hread.
      assert (rest <> []) as Hne by (intros ->; unfold len in HS; simpl in HS; lia).
      destruct (file_read_progress n rest chunk rest' Hn Hne Hread)
        as [Hchunk Hlt].
      rewrite Hchunk.
      pose proof (file_read_app _ _ _ _ Hread) as Happ.
      destruct (IH (remaining - len chunk) (bw + len chunk) rest'
                  (part ++ chunk)) as (p & rest'' & -> & Hp & Hne' & Hnil & Hfull & Hle).
      { rewrite <- Happ, len_app in HS. lia. }
      { lia. }
      exists (chunk ++ p), rest''.
      rewrite len_app, <- !app_assoc, Z.add_assoc.
      split_and!; [done|by rewrite Hp| | | |].
      * intros _ _. by destruct chunk.
      * lia.
      * intros _. destruct (decide (0 < remaining - len chunk)) as [Hpos|Hpos].
        { destruct (Hfull Hpos) as [?|?]; [left; lia|by right]. }
        rewrite (Hnil ltac:(lia)) in *. rewrite app_nil_l in Hp. subst rest''.
        destruct (decide (bs < 0)) as [Hneg|Hneg].
        { right. eapply (file_read_negative _ rest); [|done]. lia. }
        left. apply file_read_bound in Hread; [|lia].
        change (len []) with 0. lia.
      * intros Hbs' _. apply file_read_bound in Hread as Hb; [|lia].
        destruct (decide (0 < remaining - len chunk)) as [Hpos|Hpos].
        { specialize (Hle Hbs' ltac:(lia)). lia. }
        rewrite (Hnil ltac:(lia)). change (len []) with 0. lia.
    + exists [], rest. change (len []) with 0.
      rewrite Z.add_0_r, app_nil_r. split_and!; try done.
      * intros Hrem Hne. apply andb_false_iff in Hcond as [?|Hbw]; [lia|].
        apply Z.ltb_ge in Hbw. destruct rest; [done|].
        unfold len in HS. simpl in HS. lia.
      * intros Hrem. right. apply andb_false_iff in Hcond as [?|Hbw]; [lia|].
        apply Z.ltb_ge in Hbw. apply len_nil_inv. unfold len in *. lia.
Qed.

(** ** Decimal numerals *)

Lemma digit_value_pretty_N_char (x : N) :
  (x < 10)%N -> digit_value (pretty_N_char x) = Some (Z.of_N x).
Proof.
  intros Hx.
  assert (x = 0 \/ x = 1 \/ x = 2 \/ x = 3 \/ x = 4 \/ x = 5 \/ x = 6
          \/ x = 7 \/ x = 8 \/ x = 9)%N as Hcases by lia.
  repeat (destruct Hcases as [->|Hcases]; [reflexivity|]). by subst.
Qed.

Lemma parse_digits_pretty_N_go (x : N) (s : string) (after_digit : bool) :
  parse_digits (pretty_N_go x s) 0 after_digit
  = parse_digits s (Z.of_N x) (if decide (x = 0%N) then after_digit else true).
Proof.
  revert s after_digit.
  induction (N.lt_wf_0 x) as [x _ IH]; intros s after_digit.
  destruct (decide (x = 0%N)) as [->|Hx]; [done|].
  rewrite pretty_N_go_step by lia.
  rewrite IH by (apply N.div_lt; lia).
  cbn [parse_digits].
  rewrite digit_value_pretty_N_char by (apply N.mod_lt; lia).
  f_equal. rewrite (N.div_mod x 10) at 3 by lia. lia.
Qed.

Lemma parse_digits_pretty (n : Z) (after_digit : bool) :
  0 <= n -> parse_digits (pretty n) 0 after_digit = Some n.
Proof.
  intros Hn. destruct n as [|p|p]; [done| |lia].
  change (pretty (Z.pos p)) with (pretty (N.pos p)).
  unfold pretty, pretty_N. destruct (decide (N.pos p = 0%N)); [done|].
  rewrite parse_digits_pretty_N_go. by destruct (decide _).
Qed.

Lemma parse_digits_zeros k s after_digit :
  parse_digits (zeros k +:+ s) 0 after_digit
  = parse_digits s 0 (match k with O => after_digit | _ => true end).
Proof.
  revert after_digit. induction k as [|k IH]; intros after_digit; [done|].
  change (zeros (S k) +:+ s) with (String "0"%char (zeros k +:+ s)).
  cbn [parse_digits]. change (digit_value "0") with (Some 0).
  cbv iota beta. change (10 * 0 + 0) with 0. rewrite IH. by destruct k.
Qed.

Lemma parse_digits_fmt03d (i : Z) :
  0 <= i -> parse_digits (fmt03d i) 0 false = Some i.
Proof.
  intros Hi. unfold fmt03d. destruct (i <? 0) eqn:E; [lia|].
  rewrite parse_digits_zeros. by apply parse_digits_pretty.
Qed.

Lemma fmt03d_inj i j : 0 <= i -> 0 <= j -> fmt03d i = fmt03d j -> i = j.
Proof.
  intros Hi Hj Heq. apply parse_digits_fmt03d in Hi, Hj.
  rewrite Heq in Hi. congruence.
Qed.

Lemma part_name_inj base i j :
  0 <= i -> 0 <= j -> part_name base i = part_name base j -> i = j.
Proof.
  unfold part_name. intros Hi Hj Heq.
  apply fmt03d_inj; [done..|].
  by apply (inj (String.append ".part")), (inj (String.append base)).
Qed.

Lemma part_name_not_info base i : part_name base i <> info_name base.
Proof.
  unfold part_name, info_name. intros Heq.
  apply (inj (String.append base)) in Heq. discriminate.
Qed.

Lemma string_forall_app P s t :
  string_forall P (s +:+ t) = string_forall P s && string_forall P t.
Proof.
  induction s as [|c s IH]; [done|].
  change (String c s +:+ t) with (String c (s +:+ t)).
  cbn [string_forall]. by rewrite IH, andb_assoc.
Qed.

Lemma string_forall_impl (P Q : ascii -> bool) s :
  (forall c, P c = true -> Q c = true) ->
  string_forall P s = true -> string_forall Q s = true.
Proof.
  intros HPQ. induction s as [|c s IH]; [done|]. cbn [string_forall].
  intros [Hc Hs]%andb_true_iff. by rewrite (HPQ c Hc), IH.
Qed.

Lemma is_digit_pretty_N_char (x : N) : is_digit (pretty_N_char x) = true.
Proof.
  unfold pretty_N_char. repeat case_match; reflexivity.
Qed.

Lemma digits_pretty_N_go (x : N) (s : string) :
  string_forall is_digit (pretty_N_go x s) = string_forall is_digit s.
Proof.
  revert s. induction (N.lt_wf_0 x) as [x _ IH]; intros s.
  destruct (decide (x = 0%N)) as [->|Hx]; [done|].
  rewrite pretty_N_go_step by lia.
  rewrite IH by (apply N.div_lt; lia).
  cbn [string_forall]. by rewrite is_digit_pretty_N_char.
Qed.

Lemma pretty_N_go_not_empty (x : N) (s : string) :
  x <> 0%N \/ s <> "" -> pretty_N_go x s <> "".
Proof.
  revert s. induction (N.lt_wf_0 x) as [x _ IH]; intros s Hne.
  destruct (decide (x = 0%N)) as [->|Hx].
  - rewrite pretty_N_go_0. by destruct Hne.
  - rewrite pretty_N_go_step by lia. apply IH; [apply N.div_lt; lia|].
    by right.
Qed.

Lemma digits_pretty (n : Z) :
  0 <= n -> string_forall is_digit (pretty n) = true /\ pretty n <> "".
Proof.
  intros Hn. destruct n as [|p|p]; [done| |lia].
  change (pretty (Z.pos p)) with (pretty (N.pos p)).
  unfold pretty, pretty_N. destruct (decide (N.pos p = 0%N)); [done|].
  split; [by rewrite digits_pretty_N_go|].
  apply pretty_N_go_not_empty. by left.
Qed.

Lemma digits_zeros k : string_forall is_digit (zeros k) = true.
Proof. induction k; [done|]. cbn [zeros string_forall]. by rewrite IHk. Qed.

Lemma append_not_empty s t : t <> "" -> s +:+ t <> "".
Proof. destruct s; [done|]. simpl. done. Qed.

Lemma digits_fmt03d (i : Z) :
  0 <= i -> string_forall is_digit (fmt03d i) = true /\ fmt03d i <> "".
Proof.
  intros Hi. unfold fmt03d. destruct (i <? 0) eqn:E; [lia|].
  destruct (digits_pretty i Hi) as [Hd Hne].
  split; [|by apply append_not_empty].
  by rewrite string_forall_app, digits_zeros, Hd.
Qed.

Lemma last_char_app s t : t <> "" -> last_char (s +:+ t) = last_char t.
Proof.
  intros Ht. induction s as [|c s IH]; [done|].
  change (String c s +:+ t) with (String c (s +:+ t)).
  cbn [last_char]. rewrite IH.
  destruct (s +:+ t) eqn:E; [|done].
  by destruct (append_not_empty s t Ht).
Qed.

Lemma last_char_forall P s c :
  string_forall P s = true -> last_char s = Some c -> P c = true.
Proof.
  induction s as [|c' s IH]; [done|]. cbn [string_forall last_char].
  intros [Hc Hs]%andb_true_iff. destruct s; [by intros [= <-]|]. by apply IH.
Qed.

Lemma endswith_last_char s suffix c :
  endswith s suffix = true -> last_char suffix = Some c ->
  last_char s = Some c.
Proof.
  intros Hends Hc. induction s as [|c' s IH]; cbn [endswith] in Hends.
  - rewrite orb_false_r in Hends. apply String.eqb_eq in Hends. by subst.
  - apply orb_true_iff in Hends as [->%String.eqb_eq|Hends]; [done|].
    specialize (IH Hends). cbn [last_char]. by destruct s.
Qed.

Lemma part_name_not_dot_info base i :
  0 <= i -> endswith (part_name base i) ".info" = false.
Proof.
  intros Hi. destruct (endswith _ _) eqn:Hends; [|done].
  apply (endswith_last_char _ _ "o") in Hends; [|done].
  destruct (digits_fmt03d i Hi) as [Hd Hne].
  unfold part_name in Hends.
  rewrite !last_char_app in Hends by (try apply append_not_empty; done).
  by apply (last_char_forall _ _ _ Hd) in Hends.
Qed.

Lemma endswith_info_name base : endswith (info_name base) ".info" = true.
Proof.
  unfold info_name. induction base as [|c base IH]; [done|].
  change (String c base +:+ ".info") with (String c (base +:+ ".info")).
  cbn [endswith]. by rewrite IH, orb_true_r.
Qed.

(** ** Files of a directory *)

Lemma dir_lookup_write_eq d name content :
  dir_lookup (dir_write d name content) name = Some content.
Proof.
  induction d as [|[n c] d IH]; simpl.
  - by rewrite String.eqb_refl.
  - destruct (String.eqb n name) eqn:E; simpl; by rewrite E.
Qed.

Lemma dir_lookup_write_ne d name content name' :
  name <> name' ->
  dir_lookup (dir_write d name content) name' = dir_lookup d name'.
Proof.
  intros Hne. induction d as [|[n c] d IH]; simpl.
  - by apply String.eqb_neq in Hne as ->.
  - destruct (String.eqb n name) eqn:E; simpl.
    + apply String.eqb_eq in E as ->. by apply String.eqb_neq in Hne as ->.
    + by rewrite IH.
Qed.


Lemma filter_none (l : list string) :
  Forall (fun f => endswith f ".info" = false) l ->
  filter (fun f => endswith f ".info" = true) l = [].
Proof.
  induction 1 as [|f l Hf _ IH]; [done|].
  rewrite filter_cons_False by (by rewrite Hf). done.
Qed.

Lemma write_parts_lookup_other d base pn ps name :
  (forall k, pn <= k -> name <> part_name base k) ->
  dir_lookup (write_parts d base pn ps) name = dir_lookup d name.
Proof.
  revert d pn. induction ps as [|p ps IH]; intros d pn Hother; [done|].
  simpl. rewrite IH by (intros k Hk; apply Hother; lia).
  apply dir_lookup_write_ne. apply not_eq_sym, Hother. lia.
Qed.

Lemma write_parts_lookup d base pn ps (i : nat) p :
  0 <= pn -> ps !! i = Some p ->
  dir_lookup (write_parts d base pn ps) (part_name base (pn + Z.of_nat i))
  = Some p.
Proof.
  revert d pn i. induction ps as [|p' ps IH]; intros d pn i Hpn Hi; [done|].
  destruct i as [|i]; cbn [write_parts].
  - simplify_eq/=. rewrite Z.add_0_r, write_parts_lookup_other.
    + apply dir_lookup_write_eq.
    + intros k Hk Heq. apply part_name_inj in Heq; lia.
  - replace (pn + Z.of_nat (S i)) with (pn + 1 + Z.of_nat i) by lia.
    apply IH; [lia|done].
Qed.



(** ** The parts written by [split_file] *)

Lemma full_but_last_concat_nil c ps :
  full_but_last c ps -> concat ps = [] -> ps = [].
Proof.
  destruct ps as [|p ps]; [done|]. simpl. intros (Hp & _) Hnil.
  apply app_eq_nil in Hnil as [-> _]. done.
Qed.

(** The outer loop cuts what is left of the source into parts. *)
Lemma split_parts_spec fuel base C bs S bw pn rest d :
  -1 <= bs -> bs <> 0 -> 0 < C -> bw + len rest = S ->
  (length rest <= fuel)%nat ->
  exists ps,
    split_parts fuel base C bs S bw pn rest d
    = Some (pn + Z.of_nat (length ps), write_parts d base pn ps, None) /\
    concat ps = rest /\
    full_but_last C ps /\
    (0 < bs -> Forall (fun p => len p <= C) ps).
Proof.
  intros Hvalid Hbs HC. revert bw pn rest d.
  induction fuel as [|fuel IH]; intros bw pn rest d HS Hlen.
  - destruct rest; [|simpl in Hlen; lia]. change (len []) with 0 in HS.
    exists []. simpl. destruct (bw <? S) eqn:E; [lia|].
    by rewrite Z.add_0_r.
  - cbn [split_parts]. destruct (bw <? S) eqn:E.
    + apply Z.ltb_lt in E.
      assert (rest <> []) as Hne by (intros ->; change (len []) with 0 in HS; lia).
      destruct (split_part_spec (length rest) bs S C bw rest [] Hvalid Hbs HS
                  (Nat.le_refl _))
        as (p & rest' & -> & Hp & Hpne & _ & Hfull & Hle).
      specialize (Hpne HC Hne). specialize (Hfull HC).
      assert (length rest = length p + length rest')%nat as Hlens
        by (rewrite <- Hp; apply length_app).
      assert (0 < length p)%nat by (destruct p; [done|simpl; lia]).
      destruct (IH (bw + len p) (pn + 1) rest'
                  (dir_write d (part_name base pn) ([] ++ p)))
        as (ps & -> & Hps & Hlayout & Hbound).
      { rewrite <- Hp, len_app in HS. lia. }
      { lia. }
      exists (p :: ps). simpl.
      split_and!.
      * f_equal. f_equal. f_equal. lia.
      * by rewrite Hps.
      * done.
      * destruct Hfull as [Hfull|Hfull]; [by right|]. subst rest'. left.
        by apply (full_but_last_concat_nil C).
      * done.
      * intros Hbs'. constructor; [apply Hle; lia|by apply Hbound].
    + exists []. simpl. rewrite Z.add_0_r. split_and!; try done.
      apply Z.ltb_ge in E. symmetry. apply len_nil_inv. unfold len in *. lia.
Qed.

(** With a chunk size that is not positive, or a buffer size of zero, the
    loop makes no progress: no amount of fuel lets it finish. *)
Lemma split_part_stuck fuel bs S C bw rest :
  C <= 0 \/ bs = 0 ->
  split_part fuel bs S C bw rest [] = Some (bw, rest, [], None).
Proof.
  intros Hstuck. destruct fuel; simpl.
  all: destruct ((0 <? C) && (bw <? S)) eqn:Hcond; [|done].
  all: apply andb_true_iff in Hcond as [HC Hbw].
  all: apply Z.ltb_lt in HC, Hbw.
  all: destruct Hstuck as [Hc|Hb]; [lia|subst bs].
  all: replace (Z.min (Z.min 0 C) (S - bw)) with 0 by lia.
  all: by rewrite file_read_zero.
Qed.

Lemma split_parts_diverges fuel base C bs S bw pn rest d :
  C <= 0 \/ bs = 0 -> bw < S ->
  split_parts fuel base C bs S bw pn rest d = None.
Proof.
  intros Hstuck Hbw. revert pn d.
  induction fuel as [|fuel IH]; intros pn d; simpl.
  all: destruct (bw <? S) eqn:E; [|lia].
  - done.
  - rewrite split_part_stuck by done. apply IH.
Qed.

(** With a buffer size below -1 and a positive chunk size, the first
    read raises: the part file that was opened for it is left empty. *)
Lemma split_part_raises fuel bs S C bw rest part :
  bs < -1 -> 0 < C -> bw < S ->
  split_part fuel bs S C bw rest part = Some (bw, rest, part, Some ValueError).
Proof.
  intros Hbs HC Hbw. destruct fuel; simpl.
  all: destruct ((0 <? C) && (bw <? S)) eqn:Hcond;
    [|apply andb_false_iff in Hcond as [?|?]; lia].
  all: by rewrite file_read_raises by lia.
Qed.

Lemma split_parts_raises fuel base C bs S bw pn rest d :
  bs < -1 -> 0 < C -> bw < S ->
  split_parts (Datatypes.S fuel) base C bs S bw pn rest d
  = Some (pn, dir_write d (part_name base pn) [], Some ValueError).
Proof.
  intros Hbs HC Hbw. cbn [split_parts].
  destruct (bw <? S) eqn:E; [|lia].
  by rewrite split_part_raises.
Qed.

(** What [split_file] returns for a non-empty source, a positive chunk
    size and a buffer size that is -1 or positive. *)
Lemma split_file_spec content base C verify_hash bs d0 :
  content <> [] -> 0 < C -> -1 <= bs -> bs <> 0 ->
  exists ps,
    split_file (Some content) base C verify_hash bs d0
    = SplitDone (split_dir d0 base ps (len content) C
                   (if verify_hash then Some (SHA256.hexdigest content)
                    else None)) /\
    concat ps = content /\
    full_but_last C ps /\
    (0 < bs -> Forall (fun p => len p <= C) ps).
Proof.
  intros Hne HC Hvalid Hbs. unfold split_file, split_file_fuel.
  destruct (len content =? 0) eqn:E.
  { apply Z.eqb_eq, len_nil_inv in E. done. }
  assert (0 + len content = len content) as HS by lia.
  destruct (split_parts_spec (length content) base C bs (len content) 0 1
              content d0 Hvalid Hbs HC HS (Nat.le_refl _))
    as (ps & Hrun & Hps & Hlayout & Hbound).
  exists ps. split_and!; try done.
  rewrite calculate_file_hash_default.
  simpl. rewrite Hrun.
  replace (1 + Z.of_nat (length ps) - 1) with (Z.of_nat (length ps)) by lia.
  by destruct verify_hash.
Qed.

(** What it returns for a buffer size below -1. *)
Lemma split_file_raises content base C verify_hash bs d0 :
  content <> [] -> 0 < C -> bs < -1 ->
  split_file (Some content) base C verify_hash bs d0
  = SplitRaised ValueError (dir_write d0 (part_name base 1) []).
Proof.
  intros Hne HC Hbs. unfold split_file, split_file_fuel.
  destruct (len content =? 0) eqn:E.
  { apply Z.eqb_eq, len_nil_inv in E. done. }
  apply Z.eqb_neq in E.
  assert (0 < len content) as Hpos by (unfold len in *; lia).
  rewrite calculate_file_hash_default.
  change (default [] (Some content)) with content.
  destruct (length content) as [|k] eqn:Hk; [unfold len in Hpos; lia|].
  rewrite split_parts_raises by done.
  by destruct verify_hash.
Qed.

Lemma split_file_done content base C verify_hash bs d0 d :
  split_file (Some content) base C verify_hash bs d0 = SplitDone d ->
  content <> [] /\ 0 < C /\ bs <> 0 /\ -1 <= bs.
Proof.
  intros Hdone.
  assert (content <> []) as Hne.
  { intros ->. unfold split_file, split_file_fuel in Hdone. done. }
  destruct (decide (C <= 0 \/ bs = 0)) as [Hstuck|Hok].
  - unfold split_file, split_file_fuel in Hdone.
    destruct (len content =? 0) eqn:E; [done|].
    apply Z.eqb_neq in E.
    rewrite calculate_file_hash_default in Hdone.
    rewrite (split_parts_diverges _ base C bs (len content) 0 1
               content d0 Hstuck) in Hdone.
    + by destruct verify_hash.
    + unfold len in *. lia.
  - destruct (decide (bs < -1)) as [Hbad|Hvalid].
    + rewrite split_file_raises in Hdone by (done || lia). done.
    + split_and!; [done|lia..].
Qed.

Lemma split_dir_lookup_part d0 base ps S C h (i : nat) p :
  ps !! i = Some p ->
  dir_lookup (split_dir d0 base ps S C h) (part_name base (1 + Z.of_nat i))
  = Some p.
Proof.
  intros Hi. unfold split_dir.
  rewrite dir_lookup_write_ne by apply not_eq_sym, part_name_not_info.
  by apply write_parts_lookup.
Qed.

Lemma split_dir_lookup_info d0 base ps S C h :
  dir_lookup (split_dir d0 base ps S C h) (info_name base)
  = Some (encode (info_text base (Z.of_nat (length ps)) S C h)).
Proof. apply dir_lookup_write_eq. Qed.


Lemma layout_sizes C ps :
  full_but_last C ps ->
  (forall (i : nat) p, ps !! i = Some p -> (S i < length ps)%nat -> len p = C) /\
  (forall p, last ps = Some p ->
     0 < len p /\
     len (concat ps) = (Z.of_nat (length ps) - 1) * C + len p).
Proof.
  induction ps as [|p ps IH]; intros Hlayout; [done|].
  destruct Hlayout as (Hne & Hfull & Hlayout).
  destruct (IH Hlayout) as [IHfull IHlast]. split.
  - intros [|i] q Hq Hi; simpl in *.
    + simplify_eq. destruct Hfull as [->|Hp]; [simpl in Hi; lia|done].
    + apply (IHfull i); [done|lia].
  - intros q Hq. destruct ps as [|p' ps].
    + simpl in Hq. simplify_eq. simpl. rewrite app_nil_r.
      split; [|lia]. unfold len. destruct q; [done|simpl; lia].
    + rewrite last_cons_cons in Hq. destruct (IHlast q Hq) as [Hpos Hsum].
      split; [done|]. cbn [concat]. rewrite len_app.
      cbn [concat] in Hsum. rewrite Hsum.
      destruct Hfull as [?|Hp]; [done|]. cbn [length].
      rewrite !Nat2Z.inj_succ. lia.
Qed.

Lemma ceil_div_unique S C n :
  0 < C -> C * (n - 1) < S <= C * n -> n = ceil_div S C.
Proof.
  intros HC Hn. unfold ceil_div.
  apply (Z.div_unique _ _ _ (S + C - 1 - C * n)); lia.
Qed.

(** C4, as amended.  For a non-empty source, a positive chunk size and
    a positive buffer size, [split_file] returns having written the part
    files [ps], numbered from 1, and the manifest.  There are
    [ceil(size / chunk_size)] parts; together they are the source; every
    part but the last holds [chunk_size] bytes and the last holds the
    rest; the manifest records the count, the size and the chunk size,
    which satisfy
    [chunk_size * (parts_count - 1) < original_size <= chunk_size * parts_count]. *)
Theorem split_part_count
    (content : bytes) (base_name : string) (chunk_size : Z)
    (verify_hash : bool) (buffer_size : Z) (d0 : directory) :
  content <> [] -> 0 < chunk_size -> 0 < buffer_size ->
  exists (ps : list bytes) (d : directory) (file_hash : option string),
    let parts_count := Z.of_nat (length ps) in
    split_file (Some content) base_name chunk_size verify_hash buffer_size d0
    = SplitDone d /\
    (forall (i : nat) p, ps !! i = Some p ->
       dir_lookup d (part_name base_name (1 + Z.of_nat i)) = Some p) /\
    dir_lookup d (info_name base_name)
    = Some (encode (info_text base_name parts_count (len content) chunk_size
                      file_hash)) /\
    parts_count = ceil_div (len content) chunk_size /\
    concat ps = content /\
    (forall (i : nat) p, ps !! i = Some p -> (S i < length ps)%nat ->
       len p = chunk_size) /\
    (forall p, last ps = Some p ->
       len p = len content - (parts_count - 1) * chunk_size) /\
    chunk_size * (parts_count - 1) < len content <= chunk_size * parts_count.
Proof.
  intros Hne HC Hbs.
  destruct (split_file_spec content base_name chunk_size verify_hash
              buffer_size d0 Hne HC ltac:(lia) ltac:(lia))
    as (ps & Hsplit & Hps & Hlayout & Hbound).
  specialize (Hbound Hbs).
  destruct (layout_sizes chunk_size ps Hlayout) as [Hfull Hlast].
  assert (exists p, last ps = Some p) as [q Hq].
  { destruct ps as [|p ps] using rev_ind; [by subst|].
    exists p. apply last_snoc. }
  destruct (Hlast q Hq) as [Hpos Hsum]. rewrite Hps in Hsum.
  assert (len q <= chunk_size) as Hq_le.
  { rewrite Forall_forall in Hbound. apply Hbound.
    apply last_Some in Hq as [ps' ->]. apply elem_of_app. right. by left. }
  eexists ps, _, _. cbv zeta.
  split_and!; [exact Hsplit|..].
  - intros i p Hi. by apply split_dir_lookup_part.
  - apply split_dir_lookup_info.
  - apply ceil_div_unique; [done|]. nia.
  - done.
  - done.
  - intros p Hp. simplify_eq. lia.
  - nia.
  - nia.
Qed.

(** ** C6: the byte ranges of the parts *)

Lemma part_infos_loop_present d name c indices :
  Forall (fun i => is_Some (dir_lookup d (part_name name i))) indices ->
  part_infos_loop d name c indices = inr (map (info_of d name c) indices).
Proof.
  induction 1 as [|i indices [content Hi] _ IH]; [done|].
  simpl. rewrite Hi, IH. unfold info_of. by rewrite Hi.
Qed.

Lemma split_dir_parts_present d0 base ps S C h :
  Forall (fun i => is_Some (dir_lookup (split_dir d0 base ps S C h)
                              (part_name base i)))
    (seqZ 1 (Z.of_nat (length ps))).
Proof.
  apply Forall_seqZ. intros i Hi.
  destruct (lookup_lt_is_Some_2 ps (Z.to_nat (i - 1)) ltac:(lia)) as [p Hp].
  apply (split_dir_lookup_part d0 base ps S C h) in Hp.
  replace (1 + Z.of_nat (Z.to_nat (i - 1))) with i in Hp by lia. eauto.
Qed.

Lemma split_dir_infos d0 base ps S C h (i : nat) p :
  ps !! i = Some p ->
  map (info_of (split_dir d0 base ps S C h) base C)
    (seqZ 1 (Z.of_nat (length ps))) !! i
  = Some (PartInfo (1 + Z.of_nat i) (part_name base (1 + Z.of_nat i))
            (Z.of_nat i * C) (len p)).
Proof.
  intros Hp. pose proof (lookup_lt_Some _ _ _ Hp) as Hlt.
  rewrite list_lookup_fmap, lookup_seqZ_lt by lia. simpl.
  unfold info_of. rewrite (split_dir_lookup_part _ _ _ _ _ _ _ _ Hp).
  simpl. f_equal. f_equal. lia.
Qed.

(** C6.  Take the directory a split returns and position its parts as
    the join does: part [i] at offset [(i - 1) * chunk_size], with the
    size of its file.  The list [part_infos] is built without a missing
    part; the first range starts at 0, each range ends where the next
    starts, the last ends at the size of the source, and two different
    parts never overlap. *)
Theorem split_ranges_partition
    (content : bytes) (base_name : string) (chunk_size : Z)
    (verify_hash : bool) (buffer_size : Z) (d0 d : directory) :
  split_file (Some content) base_name chunk_size verify_hash buffer_size d0
  = SplitDone d ->
  exists (parts_count : Z) (infos : list part_info),
    part_infos_loop d base_name chunk_size (seqZ 1 parts_count) = inr infos /\
    Z.of_nat (length infos) = parts_count /\ 0 < parts_count /\
    (forall (i : nat) p, infos !! i = Some p ->
       pi_num p = 1 + Z.of_nat i /\
       pi_position p = (pi_num p - 1) * chunk_size /\
       0 < pi_size p /\
       exists part, dir_lookup d (pi_filename p) = Some part /\
                    pi_size p = len part) /\
    (forall p, infos !! 0%nat = Some p -> pi_position p = 0) /\
    (forall (i : nat) p q, infos !! i = Some p -> infos !! S i = Some q ->
       pi_position p + pi_size p = pi_position q) /\
    (forall p, last infos = Some p -> pi_position p + pi_size p = len content) /\
    (forall (i j : nat) p q, i <> j ->
       infos !! i = Some p -> infos !! j = Some q ->
       pi_position p + pi_size p <= pi_position q \/
       pi_position q + pi_size q <= pi_position p).
Proof.
  intros Hdone.
  destruct (split_file_done _ _ _ _ _ _ _ Hdone) as (Hne & HC & Hbs & Hvalid).
  destruct (split_file_spec content base_name chunk_size verify_hash
              buffer_size d0 Hne HC Hvalid Hbs)
    as (ps & Hsplit & Hps & Hlayout & _).
  rewrite Hsplit in Hdone. injection Hdone as <-.
  set (h := if verify_hash then _ else _). clearbody h.
  set (d := split_dir d0 base_name ps (len content) chunk_size h).
  destruct (layout_sizes chunk_size ps Hlayout) as [Hfull Hlast].
  set (infos := map (info_of d base_name chunk_size)
                  (seqZ 1 (Z.of_nat (length ps)))).
  assert (length infos = length ps) as Hlen
    by (subst infos; rewrite length_map, length_seqZ; lia).
  assert (forall (i : nat) p, infos !! i = Some p ->
            exists part, ps !! i = Some part /\
              p = PartInfo (1 + Z.of_nat i) (part_name base_name (1 + Z.of_nat i))
                    (Z.of_nat i * chunk_size) (len part)) as Hinfo.
  { intros i p Hp. pose proof (lookup_lt_Some _ _ _ Hp) as Hlt.
    destruct (lookup_lt_is_Some_2 ps i ltac:(lia)) as [part Hpart].
    exists part. split; [done|].
    subst infos d. rewrite (split_dir_infos _ _ _ _ _ _ _ _ Hpart) in Hp.
    congruence. }
  assert (forall (i : nat) part, ps !! i = Some part -> 0 < len part) as Hpos.
  { intros i part Hpart. clear -Hlayout Hpart. revert i Hpart.
    induction ps as [|p ps IH]; intros i Hi; [done|].
    destruct Hlayout as (Hp & _ & Hlayout).
    destruct i; simpl in Hi; [|by eapply IH].
    simplify_eq. unfold len. destruct part; [done|simpl; lia]. }
  exists (Z.of_nat (length ps)), infos.
  split_and!.
  - apply part_infos_loop_present, split_dir_parts_present.
  - lia.
  - destruct ps; [by subst|simpl; lia].
  - intros i p Hp. destruct (Hinfo i p Hp) as (part & Hpart & ->). simpl.
    split_and!; [done|f_equal; lia|by eapply Hpos|].
    exists part. split; [|done]. by apply split_dir_lookup_part.
  - intros p Hp. destruct (Hinfo _ p Hp) as (part & Hpart & ->). simpl. lia.
  - intros i p q Hp Hq.
    destruct (Hinfo _ p Hp) as (part & Hpart & ->).
    destruct (Hinfo _ q Hq) as (part' & Hpart' & ->). simpl.
    pose proof (lookup_lt_Some _ _ _ Hpart').
    rewrite (Hfull i part Hpart) by lia. lia.
  - intros p Hp. rewrite last_lookup in Hp.
    destruct (Hinfo _ p Hp) as (part & Hpart & ->). simpl.
    rewrite Hlen, <- last_lookup in Hpart.
    destruct (Hlast part Hpart) as [_ Hsum]. rewrite Hps in Hsum.
    rewrite Hlen. destruct ps; [done|]. simpl length in *. lia.
  - assert (forall (i j : nat) p q, (i < j)%nat ->
              infos !! i = Some p -> infos !! j = Some q ->
              pi_position p + pi_size p <= pi_position q) as Hord.
    { intros i j p q Hij Hp Hq.
      destruct (Hinfo _ p Hp) as (part & Hpart & ->).
      destruct (Hinfo _ q Hq) as (part' & Hpart' & ->). simpl.
      pose proof (lookup_lt_Some _ _ _ Hpart').
      rewrite (Hfull i part Hpart) by lia. nia. }
    intros i j p q Hij Hp Hq.
    destruct (decide (i < j)%nat).
    + left. by apply (Hord i j).
    + right. apply (Hord j i); [lia|done|done].
Qed.

(** ** Writing at an offset *)






Lemma write_at_nil out p : write_at out p [] = out.
Proof. done. Qed.

Lemma write_at_cons out p b data :
  write_at out p (b :: data) = write_at (write_at out p [b]) (S p) data.
Proof.
  destruct data as [|b' data]; [done|].
  set (A := take p out ++ replicate (p - length out) x00).
  assert (length A = p) as HA
    by (subst A; rewrite length_app, length_take, length_replicate; lia).
  assert (write_at out p [b] = (A ++ [b]) ++ drop (S p) out) as ->.
  { unfold write_at. cbn [is_empty]. subst A. rewrite <- !app_assoc.
    do 4 f_equal. simpl. lia. }
  assert (length (A ++ [b]) = S p) as HAb
    by (rewrite length_app; simpl; lia).
  unfold write_at. cbn [is_empty].
  rewrite take_app_length' by done.
  rewrite length_app, HAb.
  replace (S p - (S p + length (drop (S p) out)))%nat with 0%nat by lia.
  rewrite drop_app_add' by done. rewrite drop_drop.
  subst A. simpl replicate. rewrite <- !app_assoc. simpl.
  do 6 f_equal. lia.
Qed.

Lemma write_at_byte_writes out p data :
  write_at out p data = apply_writes out (byte_writes p data).
Proof.
  revert out p. induction data as [|b data IH]; intros out p; [done|].
  rewrite write_at_cons, IH. done.
Qed.

Lemma apply_writes_app out ws1 ws2 :
  apply_writes out (ws1 ++ ws2) = apply_writes (apply_writes out ws1) ws2.
Proof. apply foldl_app. Qed.




(** ** Copying a part, in either join *)



(** ** The writer on a queue that ends with a [COMPLETED] message *)

Lemma completed_count_nonneg events : 0 <= completed_count events.
Proof.
  induction events as [|[m|] events IH]; simpl; [lia| |done].
  destruct (is_completed m); lia.
Qed.


(** ** The queue of the concurrent join *)






(** ** Both joins as byte writes *)





(** ** Writing the manifest and reading it back *)

Lemma append_assoc (s t u : string) : (s +:+ t) +:+ u = s +:+ t +:+ u.
Proof.
  induction s as [|c s IH]; [done|].
  change (String c ((s +:+ t) +:+ u) = String c (s +:+ t +:+ u)).
  by rewrite IH.
Qed.

Lemma prefix_append p r : String.prefix p (p +:+ r) = true.
Proof.
  induction p as [|c p IH]; [by destruct r|].
  change (String c p +:+ r) with (String c (p +:+ r)). cbn [String.prefix].
  by destruct (ascii_dec c c).
Qed.

Lemma readlines_line l rest :
  no_newline l = true ->
  readlines (l +:+ NL +:+ rest) = (l +:+ NL) :: readlines rest.
Proof.
  induction l as [|c l IH]; [done|]. unfold no_newline. cbn [string_forall].
  intros [[Hlf Hcr]%andb_true_iff Hl]%andb_true_iff.
  apply negb_true_iff in Hlf, Hcr.
  change (String c l +:+ NL +:+ rest) with (String c (l +:+ NL +:+ rest)).
  cbn [readlines]. rewrite Hlf, Hcr, IH by done. done.
Qed.

Lemma rstrip_line s : rstrip (s +:+ NL) = rstrip s.
Proof.
  induction s as [|c s IH]; [done|].
  change (String c s +:+ NL) with (String c (s +:+ NL)).
  cbn [rstrip]. by rewrite IH.
Qed.

Lemma length_lstrip s : (String.length (lstrip s) <= String.length s)%nat.
Proof.
  induction s as [|c s IH]; [done|]. cbn [lstrip].
  destruct (py_isspace c); simpl; lia.
Qed.

Lemma strip_line v :
  v <> "" -> lstrip v = v -> rstrip v = v -> strip (v +:+ NL) = v.
Proof.
  intros Hne Hl Hr. unfold strip. destruct v as [|c v]; [done|].
  change (String c v +:+ NL) with (String c (v +:+ NL)).
  cbn [lstrip] in *. destruct (py_isspace c).
  - pose proof (length_lstrip v) as Hlen. rewrite Hl in Hlen.
    simpl in Hlen. lia.
  - change (String c (v +:+ NL)) with (String c v +:+ NL).
    by rewrite rstrip_line.
Qed.

Lemma no_space_strip s :
  string_forall (fun c => negb (py_isspace c)) s = true ->
  lstrip s = s /\ rstrip s = s.
Proof.
  intros Hs. split.
  - destruct s as [|c s]; [done|]. cbn [string_forall lstrip] in *.
    apply andb_true_iff in Hs as [Hc%negb_true_iff _]. by rewrite Hc.
  - induction s as [|c s IH]; [done|]. cbn [string_forall rstrip] in *.
    apply andb_true_iff in Hs as [Hc%negb_true_iff Hs].
    rewrite IH, Hc by done. by destruct s.
Qed.

Lemma is_digit_facts c :
  is_digit c = true ->
  py_isspace c = false /\ Ascii.eqb c LF = false /\ Ascii.eqb c CR = false /\
  c <> "+"%char /\ c <> "-"%char.
Proof.
  destruct c as [[] [] [] [] [] [] [] []]; try discriminate; done.
Qed.

Lemma is_hex_facts c :
  is_hex_char c = true ->
  py_isspace c = false /\ Ascii.eqb c LF = false /\ Ascii.eqb c CR = false.
Proof.
  destruct c as [[] [] [] [] [] [] [] []]; try discriminate; done.
Qed.

Lemma digits_clean v :
  string_forall is_digit v = true ->
  lstrip v = v /\ rstrip v = v /\ no_newline v = true.
Proof.
  intros Hv.
  enough ((lstrip v = v /\ rstrip v = v) /\ no_newline v = true) by tauto.
  split.
  - apply no_space_strip. eapply string_forall_impl; [|done].
    intros c Hc%is_digit_facts. by destruct Hc as [-> _].
  - eapply string_forall_impl; [|done].
    intros c Hc%is_digit_facts. by destruct Hc as (_ & -> & -> & _).
Qed.

Lemma hex_clean v :
  string_forall is_hex_char v = true ->
  lstrip v = v /\ rstrip v = v /\ no_newline v = true.
Proof.
  intros Hv.
  enough ((lstrip v = v /\ rstrip v = v) /\ no_newline v = true) by tauto.
  split.
  - apply no_space_strip. eapply string_forall_impl; [|done].
    intros c Hc%is_hex_facts. by destruct Hc as [-> _].
  - eapply string_forall_impl; [|done].
    intros c Hc%is_hex_facts. by destruct Hc as (_ & -> & ->).
Qed.

Lemma py_int_digits v :
  string_forall is_digit v = true -> v <> "" ->
  py_int v = parse_digits v 0 false.
Proof.
  intros Hv Hne. unfold py_int, strip.
  destruct (digits_clean v Hv) as (-> & -> & _).
  destruct v as [|c v]; [done|]. cbn [string_forall] in Hv.
  apply andb_true_iff in Hv as [Hc _].
  destruct c as [[] [] [] [] [] [] [] []]; try discriminate; done.
Qed.

Lemma py_int_str_line (n : Z) :
  0 <= n -> py_int (strip (py_str n +:+ NL)) = Some n.
Proof.
  intros Hn. unfold py_str. destruct (digits_pretty n Hn) as [Hd Hne].
  destruct (digits_clean _ Hd) as (Hl & Hr & _).
  rewrite strip_line, py_int_digits by done.
  by apply parse_digits_pretty.
Qed.

Lemma no_newline_app s t :
  no_newline (s +:+ t) = no_newline s && no_newline t.
Proof. apply string_forall_app. Qed.

Lemma no_newline_str (n : Z) : 0 <= n -> no_newline (py_str n) = true.
Proof.
  intros Hn. destruct (digits_pretty n Hn) as [Hd _].
  by destruct (digits_clean _ Hd) as (_ & _ & ?).
Qed.


(** ** The two joins on a directory whose parts fit their slots *)




(** ** C1: splitting, then joining *)






(** The round trip also fails for a name that [strip] changes: a file
    named with a leading space is split, and neither join finds the
    parts again, because the name read back from the manifest has lost
    the space. *)
Lemma roundtrip_fails_on_padded_name :
  split_file (Some ["a"%byte; "b"%byte]) " f" 1 false 8192 []
  = SplitDone dir_padded_name /\
  join_files_single_streaming (Some dir_padded_name) None 8192 None
  = JoinResult (PartNotFound "f.part001") (Some "f") (Some [x00; x00]) /\
  join_files_multithreaded_streaming (Some dir_padded_name) None None 8192
    [] None
  = JoinResult (PartNotFound "f.part001") (Some "f") (Some [x00; x00]).
Proof. split_and!; vm_compute; reflexivity. Qed.

(** ** What the assumptions of the statements rule out *)

(** A receive that times out ends the writer, and the join reports an
    assembled file that is still all zeros. *)
Lemma stall_leaves_output_incomplete :
  join_files_multithreaded_streaming (Some dir_sample) None None 8192
    [Stall] None
  = JoinResult (Assembled 3 None) (Some "f") (Some [x00; x00; x00]).
Proof. vm_compute. reflexivity. Qed.

(** With a buffer size of zero the splitter never finishes. *)
Lemma split_zero_buffer_diverges fuel content base C verify_hash d0 :
  content <> [] ->
  split_file_fuel fuel (Some content) base C verify_hash 0 d0 = SplitDiverges.
Proof.
  intros Hne. unfold split_file_fuel.
  destruct (len content =? 0) eqn:E.
  { apply Z.eqb_eq, len_nil_inv in E. done. }
  rewrite calculate_file_hash_default.
  rewrite split_parts_diverges; [by destruct verify_hash|by right|].
  apply Z.eqb_neq in E. unfold len in *. lia.
Qed.

(** With a buffer size of -1 the first read takes the whole source. *)
Lemma split_negative_buffer_one_part :
  split_file (Some sample_content) "f" 2 false (-1) []
  = SplitDone (split_dir [] "f" [sample_content] 3 2 None).
Proof. vm_compute. reflexivity. Qed.

(** C4 as stated fails: a file of three bytes is split by chunks of two
    bytes with a buffer size of -1.  The split writes one part, which
    holds the three bytes, and records one part in the manifest, where
    [ceil(3 / 2)] is two. *)
Lemma split_part_count_fails_on_buffer_minus_one :
  split_file (Some sample_content) "f" 2 false (-1) []
  = SplitDone [ ("f.part001", sample_content);
                ("f.info", encode (info_text "f" 1 3 2 None)) ] /\
  ceil_div (len sample_content) 2 = 2.
Proof. split; vm_compute; reflexivity. Qed.

(** With a buffer size of zero neither join copies anything, and the
    digest is that of the empty file. *)
Lemma join_zero_buffer_copies_nothing :
  j_output (join_files_single_streaming (Some dir_sample) None 0 None)
  = Some [x00; x00; x00] /\
  j_output (join_files_multithreaded_streaming (Some dir_sample) None None 0
              [] None)
  = Some [x00; x00; x00].
Proof. split; vm_compute; reflexivity. Qed.

Lemma calculate_file_hash_zero_buffer content :
  calculate_file_hash content 0 = Some (Ok (SHA256.hexdigest [])).
Proof. unfold calculate_file_hash. by rewrite hash_loop_zero. Qed.



(** A worker count that is not positive makes the executor raise. *)
Lemma join_rejects_worker_count :
  join_files_multithreaded_streaming (Some dir_sample) None (Some 0) 8192
    [] None
  = JoinResult (Raised ValueError) (Some "f") (Some [x00; x00; x00]).
Proof. vm_compute. reflexivity. Qed.

(** ** Test vectors and sample runs *)

Example sha256_empty :
  SHA256.hexdigest [] =
  "e3b0c44298fc1c149afbf4c8996fb92427ae41e4649b934ca495991b7852b855".
Proof. vm_compute. reflexivity. Qed.

Example sha256_abc :
  SHA256.hexdigest sample_content =
  "ba7816bf8f01cfea414140de5dae2223b00361a396177a9cb410ff61f20015ad".
Proof. vm_compute. reflexivity. Qed.

Example split_sample :
  split_file (Some sample_content) "f" 2 false 8192 [] = SplitDone dir_sample.
Proof. vm_compute. reflexivity. Qed.

Example load_sample :
  load_info (Some dir_sample) = inr (dir_sample, manifest_sample, "f").
Proof. vm_compute. reflexivity. Qed.

Example join_sample :
  join_files_multithreaded_streaming (Some dir_sample) None (Some 4) 8192
    [Put 1; Put 0; Put 0; Put 1] None
  = JoinResult (Assembled 3 None) (Some "f") (Some sample_content).
Proof. vm_compute. reflexivity. Qed.

(** ** The statements on sample inputs *)


Lemma join_rejects_manifest_witness :
  join_files_single_streaming (Some dir_without_count) None 8192 None
  = JoinResult InfoFormatError None None /\
  join_files_multithreaded_streaming (Some dir_without_count) None None 8192
    [] None
  = JoinResult InfoFormatError None None.
Proof.
  apply (join_rejects_manifest dir_without_count "a.info"
           (encode ("original_name:a" +:+ NL)) None None 8192 [] None).
  - reflexivity.
  - reflexivity.
  - right. left. reflexivity.
Defined.

Lemma split_part_count_witness :
  exists (ps : list bytes) (d : directory) (file_hash : option string),
    let parts_count := Z.of_nat (length ps) in
    split_file (Some sample_content) "f" 2 false 1 [] = SplitDone d /\
    (forall (i : nat) p, ps !! i = Some p ->
       dir_lookup d (part_name "f" (1 + Z.of_nat i)) = Some p) /\
    dir_lookup d (info_name "f")
    = Some (encode (info_text "f" parts_count (len sample_content) 2
                      file_hash)) /\
    parts_count = ceil_div (len sample_content) 2 /\
    concat ps = sample_content /\
    (forall (i : nat) p, ps !! i = Some p -> (S i < length ps)%nat ->
       len p = 2) /\
    (forall p, last ps = Some p ->
       len p = len sample_content - (parts_count - 1) * 2) /\
    2 * (parts_count - 1) < len sample_content <= 2 * parts_count.
Proof.
  apply (split_part_count sample_content "f" 2 false 1 []).
  - discriminate.
  - reflexivity.
  - reflexivity.
Defined.

Lemma split_ranges_partition_witness :
  exists (parts_count : Z) (infos : list part_info),
    part_infos_loop dir_sample "f" 2 (seqZ 1 parts_count) = inr infos /\
    Z.of_nat (length infos) = parts_count /\ 0 < parts_count /\
    (forall (i : nat) p, infos !! i = Some p ->
       pi_num p = 1 + Z.of_nat i /\
       pi_position p = (pi_num p - 1) * 2 /\
       0 < pi_size p /\
       exists part, dir_lookup dir_sample (pi_filename p) = Some part /\
                    pi_size p = len part) /\
    (forall p, infos !! 0%nat = Some p -> pi_position p = 0) /\
    (forall (i : nat) p q, infos !! i = Some p -> infos !! S i = Some q ->
       pi_position p + pi_size p = pi_position q) /\
    (forall p, last infos = Some p ->
       pi_position p + pi_size p = len sample_content) /\
    (forall (i j : nat) p q, i <> j ->
       infos !! i = Some p -> infos !! j = Some q ->
       pi_position p + pi_size p <= pi_position q \/
       pi_position q + pi_size q <= pi_position p).
Proof.
  apply (split_ranges_partition sample_content "f" 2 false 8192 []
           dir_sample).
  vm_compute. reflexivity.
Defined.

Lemma sample_parts_present (i : Z) :
  1 <= i <= 2 -> is_Some (dir_lookup dir_sample (part_name "f" i)).
Proof.
  intros Hi. assert (i = 1 \/ i = 2) as [->| ->] by lia; vm_compute; eauto.
Defined.




Lemma concurrent_join_leaves_zero_file_witness :
  exists d m name i,
    load_info (Some dir_missing_part) = inr (d, m, name) /\
    1 <= i <= parts_count m /\ "f.part002" = part_name name i /\
    dir_lookup d "f.part002" = None /\
    0 <= original_size m /\
    j_output (join_files_multithreaded_streaming (Some dir_missing_part) None
                None 8192 [] None)
    = Some (replicate (Z.to_nat (original_size m)) x00) /\
    len (replicate (Z.to_nat (original_size m)) x00) = original_size m.
Proof.
  apply (concurrent_join_leaves_zero_file (Some dir_missing_part) None None
           8192 [] None "f.part002").
  vm_compute. reflexivity.
Defined.

(** * Further properties *)

(** ** [split_file] *)

Lemma split_file_stuck fuel content base C verify_hash bs d0 :
  content <> [] -> C <= 0 \/ bs = 0 ->
  split_file_fuel fuel (Some content) base C verify_hash bs d0 = SplitDiverges.
Proof.
  intros Hne Hstuck. unfold split_file_fuel.
  destruct (len content =? 0) eqn:E.
  { apply Z.eqb_eq, len_nil_inv in E. done. }
  rewrite calculate_file_hash_default.
  rewrite split_parts_diverges; [by destruct verify_hash|done|].
  apply Z.eqb_neq in E. unfold len in *. lia.
Qed.

(** X1. For a source that is not empty, a chunk size that is not positive
    or a buffer size of zero keeps [split_file] in its outer loop for
    ever: whatever the bound on the iterations, the call does not
    return. *)
Theorem split_never_returns
    (fuel : nat) (content : bytes) (base_name : string) (chunk : Z)
    (verify_hash : bool) (buffer_size : Z) (d0 : directory) :
  content <> [] -> chunk <= 0 \/ buffer_size = 0 ->
  split_file_fuel fuel (Some content) base_name chunk verify_hash
    buffer_size d0 = SplitDiverges.
Proof.
  intros Hne Hstuck. unfold split_file_fuel.
  destruct (len content =? 0) eqn:E.
  { apply Z.eqb_eq, len_nil_inv in E. done. }
  apply Z.eqb_neq in E.
  assert (0 < len content) as Hpos by (unfold len in *; lia).
  rewrite (split_parts_diverges fuel base_name chunk buffer_size (len content)
             0 1 content d0 Hstuck Hpos).
  destruct verify_hash; [|done].
  by rewrite calculate_file_hash_default.
Qed.

Lemma split_never_returns_witness :
  split_file_fuel 1000 (Some sample_content) "f" 0 true 8192 []
  = SplitDiverges.
Proof.
  apply (split_never_returns 1000 sample_content "f" 0 true 8192 []).
  - done.
  - left. lia.
Defined.




Lemma write_parts_lookup_beyond d base pn ps k :
  0 <= pn -> pn + Z.of_nat (length ps) <= k ->
  dir_lookup (write_parts d base pn ps) (part_name base k)
  = dir_lookup d (part_name base k).
Proof.
  revert d pn. induction ps as [|p ps IH]; intros d pn Hpn Hk; [done|].
  cbn [write_parts]. cbn [length] in Hk.
  rewrite IH by lia.
  apply dir_lookup_write_ne. intros Heq.
  apply part_name_inj in Heq; lia.
Qed.

(** X3. [split_file] touches only the files it writes.  When it
    returns it has written the parts [ps], which together are the
    source, under the numbers 1 to [parts], and the manifest, which
    records [parts].  A part file numbered above [parts], such as a part
    of an earlier split into more pieces, is left as it was, and so is a
    file whose name is neither that of the manifest nor that of a
    part. *)
Theorem split_keeps_other_files
    (content : bytes) (base_name : string) (chunk : Z)
    (verify_hash : bool) (buffer_size : Z) (d0 d : directory) :
  split_file (Some content) base_name chunk verify_hash buffer_size d0
  = SplitDone d ->
  exists (ps : list bytes) (file_hash : option string),
    let parts := Z.of_nat (length ps) in
    ps <> [] /\ concat ps = content /\
    (forall (i : nat) p, ps !! i = Some p ->
       dir_lookup d (part_name base_name (1 + Z.of_nat i)) = Some p) /\
    dir_lookup d (info_name base_name)
    = Some (encode (info_text base_name parts (len content) chunk
                      file_hash)) /\
    (forall k, parts < k ->
       dir_lookup d (part_name base_name k)
       = dir_lookup d0 (part_name base_name k)) /\
    (forall name,
       name <> info_name base_name ->
       (forall k, 1 <= k -> name <> part_name base_name k) ->
       dir_lookup d name = dir_lookup d0 name).
Proof.
  intros Hsplit.
  destruct (split_file_done _ _ _ _ _ _ _ Hsplit) as (Hne & HC & Hbs & Hvalid).
  destruct (split_file_spec content base_name chunk verify_hash buffer_size d0
              Hne HC Hvalid Hbs) as (ps & Hrun & Hps & Hlayout & _).
  rewrite Hrun in Hsplit. injection Hsplit as <-.
  exists ps, (if verify_hash then Some (SHA256.hexdigest content) else None).
  assert (ps <> []) as Hps_ne by (intros ->; simpl in Hps; by subst content).
  cbv zeta. split_and!.
  - done.
  - done.
  - intros i p Hp. by apply split_dir_lookup_part.
  - apply split_dir_lookup_info.
  - intros k Hk. unfold split_dir.
    rewrite dir_lookup_write_ne by (intros Heq; by apply (part_name_not_info base_name k)).
    apply write_parts_lookup_beyond; lia.
  - intros name Hinfo Hpart. unfold split_dir.
    rewrite dir_lookup_write_ne by done.
    by apply write_parts_lookup_other.
Qed.

Lemma split_keeps_other_files_witness :
  exists (ps : list bytes) (file_hash : option string),
    let parts := Z.of_nat (length ps) in
    ps <> [] /\ concat ps = sample_content /\
    (forall (i : nat) p, ps !! i = Some p ->
       dir_lookup dir_resplit (part_name "f" (1 + Z.of_nat i)) = Some p) /\
    dir_lookup dir_resplit (info_name "f")
    = Some (encode (info_text "f" parts (len sample_content) 2 file_hash)) /\
    (forall k, parts < k ->
       dir_lookup dir_resplit (part_name "f" k)
       = dir_lookup dir_stale (part_name "f" k)) /\
    (forall name,
       name <> info_name "f" ->
       (forall k, 1 <= k -> name <> part_name "f" k) ->
       dir_lookup dir_resplit name = dir_lookup dir_stale name).
Proof.
  apply (split_keeps_other_files sample_content "f" 2 false 8192 dir_stale
           dir_resplit).
  vm_compute. reflexivity.
Defined.

Lemma layout_unique C ps qs :
  full_but_last C ps -> Forall (fun p => len p <= C) ps ->
  full_but_last C qs -> Forall (fun p => len p <= C) qs ->
  concat ps = concat qs -> ps = qs.
Proof.
  revert qs. induction ps as [|p ps IH]; intros qs Hp Hpb Hq Hqb Heq.
  - simpl in Heq. symmetry. by apply (full_but_last_concat_nil C).
  - destruct qs as [|q qs].
    { by apply (full_but_last_concat_nil C (p :: ps)) in Hp. }
    simpl in Hp, Hq.
    destruct Hp as (Hpne & Hpl & Hp), Hq as (Hqne & Hql & Hq).
    apply Forall_cons in Hpb as [Hpc Hpb], Hqb as [Hqc Hqb].
    simpl in Heq.
    assert (length p = length q) as Hlen.
    { pose proof (f_equal len Heq) as Hl. rewrite !len_app in Hl.
      assert (0 <= len (concat ps)) by (unfold len; lia).
      assert (0 <= len (concat qs)) by (unfold len; lia).
      destruct Hpl as [->|Hpl], Hql as [->|Hql]; simpl in Hl;
        unfold len in *; simpl in *; lia. }
    apply app_inj_1 in Heq as [-> Heq]; [|done].
    f_equal. by apply IH.
Qed.

(** X4. The buffer size of [split_file] only sets how the source is
    read: for every source, chunk size and directory, any two positive
    buffer sizes leave the same part files and the same manifest (and,
    where the split does not finish with one, it does not with the
    other). *)
Theorem split_buffer_independent
    (source : option bytes) (base_name : string) (chunk : Z)
    (verify_hash : bool) (buffer_size1 buffer_size2 : Z) (d0 : directory) :
  0 < buffer_size1 -> 0 < buffer_size2 ->
  split_file source base_name chunk verify_hash buffer_size1 d0
  = split_file source base_name chunk verify_hash buffer_size2 d0.
Proof.
  intros Hb1 Hb2. destruct source as [content|]; [|done].
  destruct (decide (content = [])) as [->|Hne]; [done|].
  destruct (decide (0 < chunk)) as [HC|HC].
  - destruct (split_file_spec content base_name chunk verify_hash buffer_size1
                d0 Hne HC) as (ps & -> & Hps & Hlayout & Hbound); [lia..|].
    destruct (split_file_spec content base_name chunk verify_hash buffer_size2
                d0 Hne HC) as (qs & -> & Hqs & Hlayout' & Hbound'); [lia..|].
    rewrite (layout_unique chunk ps qs); auto. congruence.
  - unfold split_file. rewrite !split_file_stuck; auto; left; lia.
Qed.

Lemma split_buffer_independent_witness :
  split_file (Some sample_content) "f" 2 true 1 []
  = split_file (Some sample_content) "f" 2 true 8192 [].
Proof.
  apply (split_buffer_independent (Some sample_content) "f" 2 true 1 8192 []).
  - lia.
  - lia.
Defined.

(** ** The manifest and the file names *)

Lemma strip_line_any s : strip (s +:+ NL) = strip s.
Proof.
  unfold strip. induction s as [|c s IH]; [done|].
  change (String c s +:+ NL) with (String c (s +:+ NL)).
  cbn [lstrip]. destruct (py_isspace c); [done|].
  change (String c (s +:+ NL)) with (String c s +:+ NL).
  apply rstrip_line.
Qed.

Lemma parse_int_line key mk (n : Z) m :
  0 <= n ->
  (forall r, parse_line m (key +:+ r)
             = let* v := int_field (key +:+ r) in Ok (mk v)) ->
  after_colon key = Some "" ->
  parse_line m (key +:+ py_str n +:+ NL) = Ok (mk n).
Proof.
  intros Hn Hline Hkey. rewrite Hline.
  assert (forall r, after_colon (key +:+ r) = Some r) as Hcolon.
  { clear -Hkey. induction key as [|c key IH]; [done|]. intros r.
    change (String c key +:+ r) with (String c (key +:+ r)).
    cbn [after_colon] in *. destruct (Ascii.eqb c ":").
    - injection Hkey as ->. done.
    - by apply IH. }
  unfold int_field, field. rewrite Hcolon. cbn [of_option bind].
  by rewrite py_int_str_line.
Qed.

(** X5. The manifest [split_file] writes is read back by the joins field
    by field, except for the name: the parser strips it, so the name
    comes back without the white space at its ends. *)
Theorem manifest_read_back
    (base_name : string) (parts file_size chunk : Z)
    (file_hash : option string) :
  no_newline base_name = true ->
  0 <= parts -> 0 <= file_size -> 0 <= chunk ->
  (forall v, file_hash = Some v ->
     v <> "" /\ string_forall is_hex_char v = true) ->
  parse_info (info_text base_name parts file_size chunk file_hash)
  = Ok (Manifest (Some (strip base_name)) parts file_size chunk file_hash).
Proof.
  intros Hnl Hn HS HC Hh.
  unfold parse_info, info_text.
  rewrite <- (append_assoc "original_name:" base_name).
  rewrite readlines_line by (by rewrite no_newline_app, Hnl).
  rewrite <- (append_assoc "parts_count:" (py_str parts)).
  rewrite readlines_line by (by rewrite no_newline_app, no_newline_str).
  rewrite <- (append_assoc "original_size:" (py_str file_size)).
  rewrite readlines_line by (by rewrite no_newline_app, no_newline_str).
  rewrite <- (append_assoc "chunk_size:" (py_str chunk)).
  rewrite readlines_line by (by rewrite no_newline_app, no_newline_str).
  rewrite !append_assoc.
  cbn [parse_lines].
  assert (parse_line (Manifest None 0 0 0 None)
            ("original_name:" +:+ base_name +:+ NL)
          = Ok (Manifest (Some (strip base_name)) 0 0 0 None)) as ->.
  { unfold parse_line, startswith. rewrite prefix_append.
    assert (field ("original_name:" +:+ base_name +:+ NL)
            = Ok (strip (base_name +:+ NL))) as -> by reflexivity.
    by rewrite strip_line_any. }
  cbn [bind].
  rewrite (parse_int_line "parts_count:"
             (fun v => Manifest (Some (strip base_name)) v 0 0 None));
    [|done| |done].
  2:{ intros r. unfold parse_line, startswith. other_key.
      by rewrite prefix_append. }
  cbn [bind].
  rewrite (parse_int_line "original_size:"
             (fun v => Manifest (Some (strip base_name)) parts v 0 None));
    [|done| |done].
  2:{ intros r. unfold parse_line, startswith. do 2 other_key.
      by rewrite prefix_append. }
  cbn [bind].
  rewrite (parse_int_line "chunk_size:"
             (fun v => Manifest (Some (strip base_name)) parts file_size v
                         None));
    [|done| |done].
  2:{ intros r. unfold parse_line, startswith. do 3 other_key.
      by rewrite prefix_append. }
  cbn [bind].
  destruct file_hash as [v|]; [|done].
  destruct (Hh v eq_refl) as [Hv Hhex].
  pose proof Hv as Hv'. apply String.eqb_neq in Hv' as ->.
  destruct (hex_clean v Hhex) as (Hvl & Hvr & Hvn).
  rewrite <- (append_assoc "original_hash:" v).
  replace (("original_hash:" +:+ v) +:+ NL)
    with (("original_hash:" +:+ v) +:+ NL +:+ "")
    by (by rewrite !append_assoc).
  rewrite readlines_line by (by rewrite no_newline_app, Hvn).
  cbn [readlines parse_lines]. rewrite append_assoc.
  assert (parse_line (Manifest (Some (strip base_name)) parts file_size chunk
                        None)
            ("original_hash:" +:+ v +:+ NL)
          = Ok (Manifest (Some (strip base_name)) parts file_size chunk
                  (Some v))) as ->; [|done].
  unfold parse_line, startswith. do 4 other_key.
  rewrite prefix_append.
  assert (field ("original_hash:" +:+ v +:+ NL) = Ok (strip (v +:+ NL))) as ->
    by reflexivity.
  by rewrite strip_line.
Qed.

Lemma manifest_read_back_witness :
  parse_info (info_text " f " 2 3 2 (Some "ab"))
  = Ok (Manifest (Some (strip " f ")) 2 3 2 (Some "ab")).
Proof.
  apply (manifest_read_back " f " 2 3 2 (Some "ab")).
  - reflexivity.
  - lia.
  - lia.
  - lia.
  - intros v [= <-]. split; [done|reflexivity].
Defined.

(** X6. The names [split_file] gives its part files tell the parts
    apart, also beyond the three digits of the format, and none of them
    is taken for the manifest: a part name is not the manifest's name
    and does not end in [.info], the test by which the joins find the
    manifest. *)
Theorem part_names_distinct (base_name : string) (i j : Z) :
  0 <= i -> 0 <= j ->
  (part_name base_name i = part_name base_name j <-> i = j) /\
  part_name base_name i <> info_name base_name /\
  endswith (part_name base_name i) ".info" = false /\
  endswith (info_name base_name) ".info" = true.
Proof.
  intros Hi Hj. split_and!.
  - split; [by apply part_name_inj|by intros ->].
  - apply part_name_not_info.
  - by apply part_name_not_dot_info.
  - apply endswith_info_name.
Qed.

Lemma part_names_distinct_witness :
  (part_name "f" 1 = part_name "f" 1000 <-> 1 = 1000) /\
  part_name "f" 1 <> info_name "f" /\
  endswith (part_name "f" 1) ".info" = false /\
  endswith (info_name "f") ".info" = true.
Proof.
  apply (part_names_distinct "f" 1 1000).
  - lia.
  - lia.
Defined.

(** ** [read_part_worker_streaming] *)

Lemma take_take_drop_ge {A} (l : list A) (n t : nat) :
  (n <= t)%nat -> take n l ++ take (t - n) (drop n l) = take t l.
Proof.
  intros Hnt. replace t with (n + (t - n))%nat at 2 by lia.
  apply take_take_drop.
Qed.

Lemma read_part_loop_chunks fuel bs p bytes_read rest :
  0 < bs -> (length rest <= fuel)%nat ->
  exists chunks,
    read_part_loop fuel bs p bytes_read rest None
    = Some (chunk_msgs (pi_num p) (pi_position p + bytes_read) chunks, None) /\
    concat chunks = take (Z.to_nat (pi_size p - bytes_read)) rest /\
    Forall (fun c => 0 < len c <= bs) chunks.
Proof.
  intros Hbs. revert bytes_read rest.
  induction fuel as [|fuel IH]; intros br rest Hfuel.
  - destruct rest; [|simpl in Hfuel; lia].
    exists []. cbn [read_part_loop]. rewrite take_nil.
    destruct (br <? pi_size p) eqn:E; [|done].
    apply Z.ltb_lt in E. by rewrite file_read_nil by lia.
  - cbn [read_part_loop]. destruct (br <? pi_size p) eqn:E.
    + apply Z.ltb_lt in E.
      set (n := Z.min bs (pi_size p - br)).
      assert (0 < n) as Hn by (unfold n; lia).
      destruct (file_read_returns n rest ltac:(lia))
        as (chunk & rest' & Hread).
      rewrite Hread.
      pose proof (file_read_bound n rest chunk rest' ltac:(lia) Hread) as Hle.
      pose proof (file_read_length _ _ _ _ Hread) as Hlen.
      unfold file_read in Hread.
      destruct (n <? -1) eqn:En'; [lia|].
      destruct (n <? 0) eqn:En; [lia|]. injection Hread as <- <-.
      destruct (is_empty (take (Z.to_nat n) rest)) eqn:Hemp.
      * exists []. split_and!; [done| |done].
        apply is_empty_true in Hemp.
        destruct rest as [|b rest]; [by rewrite take_nil|].
        destruct (Z.to_nat n) eqn:Hz; [lia|done].
      * apply is_empty_false_length in Hemp.
        change (next_fault None) with (@None fault).
        destruct (IH (br + len (take (Z.to_nat n) rest))
                    (drop (Z.to_nat n) rest)) as (chunks & -> & Hcat & Hall).
        { lia. }
        exists (take (Z.to_nat n) rest :: chunks). split_and!.
        -- cbn [chunk_msgs]. by rewrite Z.add_assoc.
        -- cbn [concat]. rewrite Hcat.
           destruct (decide (Z.to_nat n <= length rest)%nat) as [Hin|Hout].
           ++ assert (len (take (Z.to_nat n) rest) = n) as ->
                by (unfold len; rewrite length_take; lia).
              replace (Z.to_nat (pi_size p - (br + n)))
                with (Z.to_nat (pi_size p - br) - Z.to_nat n)%nat by lia.
              apply take_take_drop_ge. unfold n. lia.
           ++ rewrite drop_ge, take_nil, app_nil_r by lia.
              rewrite !take_ge; [done|unfold n in *; lia|lia].
        -- constructor; [|done]. unfold len in *. unfold n in *. lia.
    + exists []. split_and!; [done| |done].
      apply Z.ltb_ge in E.
      replace (Z.to_nat (pi_size p - br)) with 0%nat by lia. done.
Qed.

(** X7. A reader that meets no error sends its part in data chunks, each
    between one byte and the buffer size long, the first at the part's
    offset and each next one where the previous ended, and then
    [COMPLETED]; together the chunks are the first [part_size] bytes of
    the part file. *)
Theorem reader_sends_contiguous_chunks
    (p : part_info) (content : bytes) (buffer_size : Z) :
  0 < buffer_size ->
  exists chunks,
    read_part_worker_streaming p (Opens content None) buffer_size
    = Some (chunk_msgs (pi_num p) (pi_position p) chunks
            ++ [completed_msg (pi_num p)]) /\
    concat chunks = take (Z.to_nat (pi_size p)) content /\
    Forall (fun c => 0 < len c <= buffer_size) chunks.
Proof.
  intros Hbs.
  destruct (read_part_loop_chunks (length content) buffer_size p 0 content
              Hbs (Nat.le_refl _)) as (chunks & Hrun & Hcat & Hall).
  exists chunks. unfold read_part_worker_streaming, read_part_try.
  rewrite Hrun, Z.add_0_r. split_and!; [done| |done].
  by rewrite Hcat, Z.sub_0_r.
Qed.

Lemma reader_sends_contiguous_chunks_witness :
  exists chunks,
    read_part_worker_streaming (PartInfo 2 "f.part002" 4 3)
      (Opens sample_content None) 2
    = Some (chunk_msgs 2 4 chunks ++ [completed_msg 2]) /\
    concat chunks = take (Z.to_nat 3) sample_content /\
    Forall (fun c => 0 < len c <= 2) chunks.
Proof.
  apply (reader_sends_contiguous_chunks (PartInfo 2 "f.part002" 4 3)
           sample_content 2).
  lia.
Defined.




(** ** [write_part_worker_streaming] *)

Lemma write_at_length_in_bounds out pos data :
  (pos + length data <= length out)%nat ->
  length (write_at out pos data) = length out.
Proof.
  intros Hin. unfold write_at. destruct (is_empty data); [done|].
  rewrite !length_app, length_take, length_replicate, length_drop. lia.
Qed.

Lemma writer_loop_keeps_length events total out completed log :
  Forall (in_bounds (len out)) events ->
  length (w_output (writer_loop events total out completed log)) = length out.
Proof.
  revert out completed log.
  induction events as [|ev events IH]; intros out completed log Hall;
    cbn [writer_loop].
  { by destruct (completed <? total). }
  apply Forall_cons in Hall as [Hev Hall].
  destruct (completed <? total); [|done].
  destruct ev as [m|]; [|done].
  destruct (is_completed m); [by apply IH|].
  destruct (is_failed m); [by apply IH|].
  destruct (msg_position m) as [position|] eqn:Hpos; [|done].
  destruct (msg_data m) as [data|] eqn:Hdata; [|done].
  destruct (position <? 0) eqn:E; [done|]. apply Z.ltb_ge in E.
  specialize (Hev position data Hpos Hdata).
  assert (length (write_at out (Z.to_nat position) data) = length out) as Hlen.
  { apply write_at_length_in_bounds. unfold len in Hev. lia. }
  rewrite IH; [done|]. unfold len. by rewrite Hlen.
Qed.

(** X10. The writer never changes the size of a file that is large
    enough for its chunks: when every data message ends within the file
    it is given, the file has the same length when the writer stops,
    however it stops. *)
Theorem writer_keeps_file_size
    (output : bytes) (events : list queue_event) (total_parts : Z) :
  Forall (in_bounds (len output)) events ->
  len (w_output (write_part_worker_streaming output events total_parts))
  = len output.
Proof.
  intros Hall. unfold len, write_part_worker_streaming.
  by rewrite writer_loop_keeps_length.
Qed.

Lemma writer_keeps_file_size_witness :
  len (w_output (write_part_worker_streaming [x00; x00; x00] events_sample 2))
  = len [x00; x00; x00].
Proof.
  apply (writer_keeps_file_size [x00; x00; x00] events_sample 2).
  repeat constructor; intros position data [= <-] [= <-]; vm_compute; done.
Defined.

Lemma writer_loop_renumber f events total out completed log log' :
  let r := writer_loop events total out completed log in
  let r' := writer_loop (map (renumber f) events) total out completed log' in
  w_end r' = w_end r /\ w_output r' = w_output r /\
  w_completed r' = w_completed r /\
  w_unread r' = map (renumber f) (w_unread r).
Proof.
  revert out completed log log'.
  induction events as [|ev events IH]; intros out completed log log';
    cbn [map writer_loop].
  { by destruct (completed <? total). }
  destruct (completed <? total); [|done].
  destruct ev as [m|]; [|done].
  cbn [renumber].
  change (is_completed (Message (f (msg_part m)) (msg_position m) (msg_data m)
                          (msg_error m))) with (is_completed m).
  change (is_failed (Message (f (msg_part m)) (msg_position m) (msg_data m)
                       (msg_error m))) with (is_failed m).
  destruct (is_completed m); [apply IH|].
  destruct (is_failed m); [apply IH|].
  cbn [msg_position msg_data].
  destruct (msg_position m) as [position|]; [|done].
  destruct (msg_data m) as [data|]; [|done].
  destruct (position <? 0); [done|]. apply IH.
Qed.

(** X11. The writer counts [COMPLETED] messages and never looks at the
    part number they carry: with the part numbers of the messages
    changed in any way, it stops at the same message and for the same
    reason, on the same count, and leaves the same file.  Two
    [COMPLETED] messages for one part count as two parts. *)
Theorem writer_ignores_part_numbers
    (f : Z -> Z) (output : bytes) (events : list queue_event)
    (total_parts : Z) :
  let r := write_part_worker_streaming output events total_parts in
  let r' := write_part_worker_streaming output (map (renumber f) events)
              total_parts in
  w_end r' = w_end r /\ w_output r' = w_output r /\
  w_completed r' = w_completed r /\
  w_unread r' = map (renumber f) (w_unread r).
Proof.
  intros r r'. unfold r, r', write_part_worker_streaming.
  destruct (writer_loop_renumber f events total_parts output 0 [] [])
    as (Hend & Hout & Hcount & Hunread).
  by split_and!.
Qed.

(** ** The joins: what stops them and what they leave *)

(** X12. Without a file whose name ends in [.info] both joins stop
    before they open anything: they report the missing manifest, resolve
    no output path and leave the output file as it was. *)
Theorem join_without_manifest
    (d : directory) (output_file : option string) (max_workers : option Z)
    (buffer_size : Z) (sched : list sched_step) (out0 : option bytes) :
  Forall (fun f => endswith f ".info" = false) (listdir d) ->
  join_files_single_streaming (Some d) output_file buffer_size out0
  = JoinResult InfoNotFound None out0 /\
  join_files_multithreaded_streaming (Some d) output_file max_workers
    buffer_size sched out0
  = JoinResult InfoNotFound None out0.
Proof.
  intros Hnone.
  unfold join_files_single_streaming, join_files_multithreaded_streaming,
    load_info.
  by rewrite filter_none.
Qed.

Lemma join_without_manifest_witness :
  join_files_single_streaming (Some dir_stale) None 8192 (Some sample_content)
  = JoinResult InfoNotFound None (Some sample_content) /\
  join_files_multithreaded_streaming (Some dir_stale) None (Some 4) 8192
    [Put 0%nat] (Some sample_content)
  = JoinResult InfoNotFound None (Some sample_content).
Proof.
  apply (join_without_manifest dir_stale None (Some 4) 8192 [Put 0%nat]
           (Some sample_content)).
  repeat constructor.
Defined.

Lemma verify_assembled m output :
  exists integrity,
    verify m output = Assembled (len output) integrity /\
    (integrity = None <-> truthy (original_hash m) = false).
Proof.
  unfold verify. destruct (truthy (original_hash m)).
  - rewrite calculate_file_hash_default.
    eexists. split; [done|]. split; done.
  - by exists None.
Qed.

Lemma writer_loop_done events total output completed log :
  total <= completed ->
  w_output (writer_loop events total output completed log) = output.
Proof.
  intros Hdone.
  destruct events; cbn [writer_loop];
    destruct (completed <? total) eqn:E; try done; lia.
Qed.

Lemma workers_ok (max_workers : option Z) :
  (forall w, max_workers = Some w -> 0 < w) ->
  match max_workers with Some w => w <=? 0 | None => false end = false.
Proof.
  intros Hworkers. destruct max_workers as [w|]; [|done].
  specialize (Hworkers w eq_refl). lia.
Qed.

(** X13. A manifest whose part count is negative passes the format
    check, which only refuses a count of zero.  Both joins then read no
    part at all: they leave a file of [original_size] zero bytes and
    report it as assembled, whatever the readers' schedule. *)
Theorem join_negative_part_count
    (parts_directory : option directory) (d : directory) (m : manifest)
    (name : string) (output_file : option string) (max_workers : option Z)
    (buffer_size : Z) (sched : list sched_step) (out0 : option bytes) :
  load_info parts_directory = inr (d, m, name) ->
  parts_count m < 0 -> 0 <= original_size m ->
  (forall w, max_workers = Some w -> 0 < w) ->
  let output := replicate (Z.to_nat (original_size m)) x00 in
  let result :=
    JoinResult (verify m output) (Some (resolve_output output_file name))
      (Some output) in
  join_files_single_streaming parts_directory output_file buffer_size out0
  = result /\
  join_files_multithreaded_streaming parts_directory output_file max_workers
    buffer_size sched out0
  = result /\
  exists integrity, verify m output = Assembled (original_size m) integrity.
Proof.
  intros Hload Hcount Hsize Hworkers output result.
  assert ((original_size m <? 0) = false) as Hsize' by lia.
  split_and!.
  - unfold join_files_single_streaming.
    rewrite Hload, Hsize', seqZ_nil by lia. done.
  - unfold join_files_multithreaded_streaming.
    rewrite Hload, Hsize', seqZ_nil by lia. cbn [part_infos_loop].
    rewrite workers_ok by done. cbn [reader_streams].
    unfold write_part_worker_streaming.
    rewrite writer_loop_done by lia. done.
  - destruct (verify_assembled m output) as (integrity & -> & _).
    exists integrity. f_equal. unfold output, len.
    rewrite length_replicate. lia.
Qed.

Lemma join_negative_part_count_witness :
  let output := replicate (Z.to_nat (original_size manifest_negative_count))
                  x00 in
  let result :=
    JoinResult (verify manifest_negative_count output)
      (Some (resolve_output None "a")) (Some output) in
  join_files_single_streaming (Some dir_negative_count) None 8192 None
  = result /\
  join_files_multithreaded_streaming (Some dir_negative_count) None (Some 2)
    8192 [Stall; Put 0%nat] None
  = result /\
  exists integrity,
    verify manifest_negative_count output
    = Assembled (original_size manifest_negative_count) integrity.
Proof.
  apply (join_negative_part_count (Some dir_negative_count) dir_negative_count
           manifest_negative_count "a" None (Some 2) 8192 [Stall; Put 0%nat]
           None).
  - vm_compute. reflexivity.
  - reflexivity.
  - discriminate.
  - intros w Hw. injection Hw as <-. reflexivity.
Defined.

Lemma read_part_worker_returns p f bs :
  is_Some (read_part_worker_streaming p f bs).
Proof.
  unfold read_part_worker_streaming, read_part_try.
  destruct f as [e|content fault]; [done|].
  destruct (read_part_loop_returns (length content) bs p 0 content fault
              (Nat.le_refl _)) as (msgs & raised & -> & _).
  destruct raised; [done|]. by destruct fault as [[k e|error]|].
Qed.

Lemma reader_streams_returns d bs infos :
  is_Some (reader_streams d bs infos).
Proof.
  induction infos as [|p infos [ss IH]]; [done|]. cbn [reader_streams].
  rewrite IH.
  by destruct (read_part_worker_returns p
    (match dir_lookup d (pi_filename p) with
     | Some content => Opens content None
     | None => OpenFails (OsError 2 "No such file or directory"
                            (pi_filename p))
     end) bs) as [s ->].
Qed.

Lemma writer_loop_stalled events total output completed log :
  w_output (writer_loop (Empty :: events) total output completed log)
  = output.
Proof. cbn [writer_loop]. by destruct (completed <? total). Qed.

(** X14. When the writer's first wait on the queue times out, the
    concurrent join writes nothing: the writer stops, the messages the
    readers send afterwards are never taken from the queue, the output is
    left as [original_size] zero bytes, and the join still reports the
    file as assembled. *)
Theorem join_stalled_writes_nothing
    (parts_directory : option directory) (d : directory) (m : manifest)
    (name : string) (output_file : option string) (max_workers : option Z)
    (buffer_size : Z) (sched : list sched_step) (out0 : option bytes) :
  load_info parts_directory = inr (d, m, name) ->
  0 <= original_size m ->
  (forall i, 1 <= i <= parts_count m ->
     is_Some (dir_lookup d (part_name name i))) ->
  (forall w, max_workers = Some w -> 0 < w) ->
  let output := replicate (Z.to_nat (original_size m)) x00 in
  join_files_multithreaded_streaming parts_directory output_file max_workers
    buffer_size (Stall :: sched) out0
  = JoinResult (verify m output) (Some (resolve_output output_file name))
      (Some output) /\
  exists integrity, verify m output = Assembled (original_size m) integrity.
Proof.
  intros Hload Hsize Hpresent Hworkers output.
  assert ((original_size m <? 0) = false) as Hsize' by lia.
  split.
  - unfold join_files_multithreaded_streaming. rewrite Hload, Hsize'.
    rewrite part_infos_loop_present
      by (apply Forall_seqZ; intros; apply Hpresent; lia).
    rewrite workers_ok by done.
    destruct (reader_streams_returns d buffer_size
                (map (info_of d name (chunk_size m))
                   (seqZ 1 (parts_count m)))) as [streams ->].
    cbn [interleave]. unfold write_part_worker_streaming.
    by rewrite writer_loop_stalled.
  - destruct (verify_assembled m output) as (integrity & -> & _).
    exists integrity. f_equal. unfold output, len.
    rewrite length_replicate. lia.
Qed.

Lemma join_stalled_writes_nothing_witness :
  let output := replicate (Z.to_nat (original_size manifest_sample)) x00 in
  join_files_multithreaded_streaming (Some dir_sample) None (Some 2) 8192
    (Stall :: [Put 0%nat; Put 1%nat]) None
  = JoinResult (verify manifest_sample output) (Some (resolve_output None "f"))
      (Some output) /\
  exists integrity,
    verify manifest_sample output
    = Assembled (original_size manifest_sample) integrity.
Proof.
  apply (join_stalled_writes_nothing (Some dir_sample) dir_sample
           manifest_sample "f" None (Some 2) 8192 [Put 0%nat; Put 1%nat] None).
  - vm_compute. reflexivity.
  - discriminate.
  - apply sample_parts_present.
  - intros w Hw. injection Hw as <-. reflexivity.
Defined.




Lemma read_part_loop_zero_buffer fuel p bytes_read rest :
  read_part_loop fuel 0 p bytes_read rest None = Some ([], None).
Proof.
  destruct fuel; cbn [read_part_loop].
  all: destruct (bytes_read <? pi_size p) eqn:E; [|done].
  all: replace (Z.min 0 (pi_size p - bytes_read)) with 0 by lia.
  all: by rewrite file_read_zero.
Qed.

Lemma reader_streams_zero_buffer d infos :
  Forall (fun p => is_Some (dir_lookup d (pi_filename p))) infos ->
  reader_streams d 0 infos
  = Some (map (fun p => [completed_msg (pi_num p)]) infos).
Proof.
  induction 1 as [|p infos [content Hp] _ IH]; [done|].
  cbn [reader_streams map]. rewrite Hp, IH.
  unfold read_part_worker_streaming, read_part_try.
  by rewrite read_part_loop_zero_buffer.
Qed.

Lemma interleave_no_data sched streams :
  Forall (Forall (fun m => is_terminal m = true)) streams ->
  no_data (interleave sched streams).
Proof.
  unfold no_data. revert streams.
  induction sched as [|[i| |] sched IH]; intros streams Hall;
    cbn [interleave].
  - apply Forall_fmap. apply Forall_concat.
    eapply Forall_impl; [done|]. intros s Hs.
    eapply Forall_impl; [done|]. done.
  - destruct (streams !! i) as [[|x xs]|] eqn:Hi; try by apply IH.
    pose proof (Forall_lookup_1 _ _ _ _ Hall Hi) as Hs.
    apply Forall_cons in Hs as [Hx Hxs].
    constructor; [done|]. apply IH. by apply Forall_insert.
  - constructor; [done|]. by apply IH.
  - constructor.
Qed.

Lemma writer_loop_no_data events total output completed log :
  no_data events ->
  w_output (writer_loop events total output completed log) = output.
Proof.
  unfold no_data. revert completed log.
  induction events as [|ev events IH]; intros completed log Hall;
    cbn [writer_loop].
  { by destruct (completed <? total). }
  apply Forall_cons in Hall as [Hev Hall].
  destruct (completed <? total); [|done].
  destruct ev as [m|]; [|done].
  unfold is_terminal in Hev.
  destruct (is_completed m); [by apply IH|].
  destruct (is_failed m); [by apply IH|done].
Qed.

Lemma copy_loop_zero_buffer fuel rest output pos :
  copy_loop fuel 0 rest output pos = Some (output, pos, None).
Proof. by destruct fuel. Qed.

Lemma single_loop_zero_buffer d name chunk indices out :
  Forall (fun i => is_Some (dir_lookup d (part_name name i))) indices ->
  Forall (fun i => 0 <= (i - 1) * chunk) indices ->
  single_loop d name chunk 0 indices out = (None, out).
Proof.
  intros Hpre Hpos.
  induction indices as [|i indices IH]; [done|]. cbn [single_loop].
  apply Forall_cons in Hpre as [[content ->] Hpre].
  apply Forall_cons in Hpos as [Hi0 Hpos].
  destruct ((i - 1) * chunk <? 0) eqn:E; [lia|].
  rewrite copy_loop_zero_buffer. by apply IH.
Qed.

(** X16. With a buffer size of zero the first read of every part
    returns nothing, so neither join copies a byte: both leave
    [original_size] zero bytes and report the file as assembled,
    whatever the readers' schedule and whether or not the writer times
    out. *)
Theorem join_zero_buffer_writes_nothing
    (parts_directory : option directory) (d : directory) (m : manifest)
    (name : string) (output_file : option string) (max_workers : option Z)
    (sched : list sched_step) (out0 : option bytes) :
  load_info parts_directory = inr (d, m, name) ->
  0 <= original_size m -> 0 <= chunk_size m ->
  (forall i, 1 <= i <= parts_count m ->
     is_Some (dir_lookup d (part_name name i))) ->
  (forall w, max_workers = Some w -> 0 < w) ->
  let output := replicate (Z.to_nat (original_size m)) x00 in
  let result :=
    JoinResult (verify m output) (Some (resolve_output output_file name))
      (Some output) in
  join_files_single_streaming parts_directory output_file 0 out0 = result /\
  join_files_multithreaded_streaming parts_directory output_file max_workers
    0 sched out0
  = result.
Proof.
  intros Hload Hsize Hchunk Hpresent Hworkers output result.
  assert ((original_size m <? 0) = false) as Hsize' by lia.
  assert (Forall (fun i => is_Some (dir_lookup d (part_name name i)))
            (seqZ 1 (parts_count m))) as Hall
    by (apply Forall_seqZ; intros; apply Hpresent; lia).
  split.
  - unfold join_files_single_streaming. rewrite Hload, Hsize'.
    rewrite single_loop_zero_buffer; [done|done|].
    apply Forall_seqZ. intros i Hi. nia.
  - unfold join_files_multithreaded_streaming. rewrite Hload, Hsize'.
    rewrite part_infos_loop_present by done.
    rewrite workers_ok by done.
    rewrite reader_streams_zero_buffer
      by (apply Forall_fmap; eapply Forall_impl; [apply Hall|done]).
    unfold write_part_worker_streaming.
    rewrite writer_loop_no_data; [done|].
    apply interleave_no_data, Forall_fmap, Forall_forall.
    intros p _. by constructor.
Qed.

Lemma join_zero_buffer_writes_nothing_witness :
  let output := replicate (Z.to_nat (original_size manifest_sample)) x00 in
  let result :=
    JoinResult (verify manifest_sample output) (Some (resolve_output None "f"))
      (Some output) in
  join_files_single_streaming (Some dir_sample) None 0 None = result /\
  join_files_multithreaded_streaming (Some dir_sample) None (Some 2) 0
    [Put 1%nat; Stall] None
  = result.
Proof.
  apply (join_zero_buffer_writes_nothing (Some dir_sample) dir_sample
           manifest_sample "f" None (Some 2) [Put 1%nat; Stall] None).
  - vm_compute. reflexivity.
  - discriminate.
  - discriminate.
  - apply sample_parts_present.
  - intros w Hw. injection Hw as <-. reflexivity.
Defined.

Lemma single_loop_ext d1 d2 name chunk bs indices out :
  Forall (fun i => dir_lookup d1 (part_name name i)
                   = dir_lookup d2 (part_name name i)) indices ->
  single_loop d1 name chunk bs indices out
  = single_loop d2 name chunk bs indices out.
Proof.
  intros Hagree. revert out.
  induction Hagree as [|i indices Hi _ IH]; intros out; [done|].
  cbn [single_loop]. rewrite Hi.
  destruct (dir_lookup d2 (part_name name i)) as [content|]; [|done].
  destruct ((i - 1) * chunk <? 0); [done|].
  by destruct (copy_loop _ _ _ _ _) as [[[output' pos'] [e|]]|].
Qed.

Lemma part_infos_loop_ext d1 d2 name chunk indices :
  Forall (fun i => dir_lookup d1 (part_name name i)
                   = dir_lookup d2 (part_name name i)) indices ->
  part_infos_loop d1 name chunk indices
  = part_infos_loop d2 name chunk indices.
Proof.
  induction 1 as [|i indices Hi _ IH]; [done|].
  cbn [part_infos_loop]. by rewrite Hi, IH.
Qed.

Lemma part_infos_loop_inr d name chunk indices infos :
  part_infos_loop d name chunk indices = inr infos ->
  map pi_filename infos = map (part_name name) indices.
Proof.
  revert infos. induction indices as [|i indices IH]; intros infos.
  { by intros [= <-]. }
  cbn [part_infos_loop].
  destruct (dir_lookup d (part_name name i)) as [content|]; [|done].
  destruct (part_infos_loop d name chunk indices) as [missing|infos'];
    [done|].
  intros [= <-]. cbn [map pi_filename]. by rewrite (IH infos').
Qed.

Lemma reader_streams_ext d1 d2 bs infos :
  Forall (fun f => dir_lookup d1 f = dir_lookup d2 f)
    (map pi_filename infos) ->
  reader_streams d1 bs infos = reader_streams d2 bs infos.
Proof.
  induction infos as [|p infos IH]; [done|]. cbn [map].
  intros [Hp Hall]%Forall_cons. cbn [reader_streams].
  by rewrite Hp, IH.
Qed.

(** X17. Of the parts directory the joins read the manifest and the part
    files the manifest counts, and nothing else: two directories that
    give the same manifest and hold the same parts 1 to [parts_count]
    are joined to the same result, whatever else they hold, such as
    part files with higher numbers. *)
Theorem join_reads_manifest_and_counted_parts
    (d1 d2 : directory) (m : manifest) (name : string)
    (output_file : option string) (max_workers : option Z)
    (buffer_size : Z) (sched : list sched_step) (out0 : option bytes) :
  load_info (Some d1) = inr (d1, m, name) ->
  load_info (Some d2) = inr (d2, m, name) ->
  (forall i, 1 <= i <= parts_count m ->
     dir_lookup d1 (part_name name i) = dir_lookup d2 (part_name name i)) ->
  join_files_single_streaming (Some d1) output_file buffer_size out0
  = join_files_single_streaming (Some d2) output_file buffer_size out0 /\
  join_files_multithreaded_streaming (Some d1) output_file max_workers
    buffer_size sched out0
  = join_files_multithreaded_streaming (Some d2) output_file max_workers
      buffer_size sched out0.
Proof.
  intros Hload1 Hload2 Hagree.
  assert (Forall (fun i => dir_lookup d1 (part_name name i)
                           = dir_lookup d2 (part_name name i))
            (seqZ 1 (parts_count m))) as Hall
    by (apply Forall_seqZ; intros; apply Hagree; lia).
  split.
  - unfold join_files_single_streaming. rewrite Hload1, Hload2.
    by rewrite (single_loop_ext d1 d2).
  - unfold join_files_multithreaded_streaming. rewrite Hload1, Hload2.
    rewrite (part_infos_loop_ext d1 d2) by done.
    destruct (part_infos_loop d2 name (chunk_size m) (seqZ 1 (parts_count m)))
      as [missing|infos] eqn:Hinfos; [done|].
    rewrite (reader_streams_ext d1 d2); [done|].
    rewrite (part_infos_loop_inr _ _ _ _ _ Hinfos). by apply Forall_fmap.
Qed.

Lemma join_reads_manifest_and_counted_parts_witness :
  join_files_single_streaming (Some dir_sample) None 8192 None
  = join_files_single_streaming (Some dir_sample_extra) None 8192 None /\
  join_files_multithreaded_streaming (Some dir_sample) None (Some 2) 8192
    [Put 1%nat; Put 0%nat] None
  = join_files_multithreaded_streaming (Some dir_sample_extra) None (Some 2)
      8192 [Put 1%nat; Put 0%nat] None.
Proof.
  apply (join_reads_manifest_and_counted_parts dir_sample dir_sample_extra
           manifest_sample "f" None (Some 2) 8192 [Put 1%nat; Put 0%nat] None).
  - vm_compute. reflexivity.
  - vm_compute. reflexivity.
  - intros i Hi. assert (i = 1 \/ i = 2) as [->| ->] by (simpl in Hi; lia);
      vm_compute; reflexivity.
Defined.

(** ** [main] *)



(** X19. A negative [--threads] is passed on as the worker count of the
    thread pool, which refuses it with a [ValueError].  By then the
    manifest has been read, the parts have been found and the output
    file has been created: [main] ends with the exception and leaves
    [original_size] zero bytes under the output path. *)
Theorem main_join_negative_threads
    (parts_directory : option directory) (d : directory) (m : manifest)
    (name : string) (output : option string) (threads : Z)
    (buffer_size : Z) (d0 : directory) (sched : list sched_step)
    (out0 : option bytes) :
  load_info parts_directory = inr (d, m, name) ->
  0 <= original_size m ->
  (forall i, 1 <= i <= parts_count m ->
     is_Some (dir_lookup d (part_name name i))) ->
  threads < 0 ->
  main (JoinArgs parts_directory output threads buffer_size) d0 sched out0
  = JoinRan (JoinResult (Raised ValueError)
               (Some (resolve_output output name))
               (Some (replicate (Z.to_nat (original_size m)) x00))).
Proof.
  intros Hload Hsize Hpresent Hthreads. cbn [main].
  destruct (threads =? 0) eqn:E; [lia|]. f_equal.
  unfold join_files_multithreaded_streaming. rewrite Hload.
  destruct (original_size m <? 0) eqn:Hneg; [lia|].
  rewrite part_infos_loop_present
    by (apply Forall_seqZ; intros; apply Hpresent; lia).
  by destruct (threads <=? 0) eqn:Hw; [|lia].
Qed.

Lemma main_join_negative_threads_witness :
  main (JoinArgs (Some dir_sample) None (-1) 8192) [] [] None
  = JoinRan (JoinResult (Raised ValueError) (Some (resolve_output None "f"))
               (Some (replicate (Z.to_nat (original_size manifest_sample))
                        x00))).
Proof.
  apply (main_join_negative_threads (Some dir_sample) dir_sample
           manifest_sample "f" None (-1) 8192 [] [] None).
  - vm_compute. reflexivity.
  - discriminate.
  - apply sample_parts_present.
  - reflexivity.
Defined.

(** ** Splitting again *)

Lemma dir_write_same d name content :
  dir_lookup d name = Some content -> dir_write d name content = d.
Proof.
  induction d as [|[n c] d IH]; [done|]. cbn [dir_lookup dir_write].
  destruct (String.eqb n name); [by intros [= ->]|].
  intros Hd. by rewrite IH.
Qed.

Lemma write_parts_same d base pn ps :
  (forall (i : nat) p, ps !! i = Some p ->
     dir_lookup d (part_name base (pn + Z.of_nat i)) = Some p) ->
  write_parts d base pn ps = d.
Proof.
  revert pn. induction ps as [|p ps IH]; intros pn Hd; [done|].
  cbn [write_parts].
  rewrite dir_write_same
    by (rewrite <- (Z.add_0_r pn); apply (Hd 0%nat); done).
  apply IH. intros i q Hq.
  replace (pn + 1 + Z.of_nat i) with (pn + Z.of_nat (S i)) by lia.
  by apply Hd.
Qed.

Lemma split_parts_any_dir fuel base C bs S bw pn rest d1 d2 n r1 :
  split_parts fuel base C bs S bw pn rest d1 = Some (n, r1, None) ->
  exists ps,
    r1 = write_parts d1 base pn ps /\
    split_parts fuel base C bs S bw pn rest d2
    = Some (n, write_parts d2 base pn ps, None).
Proof.
  revert bw pn rest d1 d2.
  induction fuel as [|fuel IH]; intros bw pn rest d1 d2; cbn [split_parts].
  all: destruct (bw <? S); [|intros [= <- <-]; by exists []].
  { done. }
  destruct (split_part (length rest) bs S C bw rest [])
    as [[[[bw' rest'] part] [e|]]|]; [done| |done].
  intros Hrun.
  destruct (IH _ _ _ _ (dir_write d2 (part_name base pn) part) Hrun)
    as (ps & -> & Hrun').
  by exists (part :: ps).
Qed.

(** X20. Splitting a file again into the directory its split has left,
    with the same chunk size, buffer size and hash option, changes
    nothing: every part and the manifest are overwritten by what they
    already hold, so that the directory after the second split is the
    directory after the first. *)
Theorem split_again_changes_nothing
    (content : bytes) (base_name : string) (chunk : Z)
    (verify_hash : bool) (buffer_size : Z) (d0 d : directory) :
  split_file (Some content) base_name chunk verify_hash buffer_size d0
  = SplitDone d ->
  split_file (Some content) base_name chunk verify_hash buffer_size d
  = SplitDone d.
Proof.
  unfold split_file, split_file_fuel. intros Hsplit.
  destruct (len content =? 0); [done|].
  rewrite calculate_file_hash_default in Hsplit |- *.
  set (file_hash := if verify_hash then Some (SHA256.hexdigest content)
                    else None).
  assert ((if verify_hash then Some (Ok (Some (SHA256.hexdigest content)))
           else Some (Ok None)) = Some (Ok file_hash)) as Hhash
    by (by destruct verify_hash).
  rewrite Hhash in Hsplit |- *. clearbody file_hash.
  destruct (split_parts _ _ _ _ _ _ _ _ d0) as [[[n r1] [e|]]|] eqn:Hrun;
    [done| |done].
  injection Hsplit as <-.
  set (text := encode (info_text base_name (n - 1) (len content) chunk
                         file_hash)).
  destruct (split_parts_any_dir _ _ _ _ _ _ _ _ _
              (dir_write r1 (info_name base_name) text) _ _ Hrun)
    as (ps & -> & ->).
  f_equal. rewrite write_parts_same.
  - apply dir_write_same, dir_lookup_write_eq.
  - intros i p Hp.
    rewrite dir_lookup_write_ne
      by (intros Heq; by apply (part_name_not_info base_name
                                  (1 + Z.of_nat i))).
    by apply write_parts_lookup.
Qed.

Lemma split_again_changes_nothing_witness :
  split_file (Some sample_content) "f" 2 false 8192 dir_resplit
  = SplitDone dir_resplit.
Proof.
  apply (split_again_changes_nothing sample_content "f" 2 false 8192 dir_stale
           dir_resplit).
  vm_compute. reflexivity.
Defined.

(** ** The writer and the messages it is sent *)

Lemma completed_count_app events1 events2 :
  completed_count (events1 ++ events2)
  = completed_count events1 + completed_count events2.
Proof.
  induction events1 as [|ev events1 IH]; [done|].
  rewrite <- app_comm_cons, !completed_count_cons, IH. lia.
Qed.

(** X22. The writer ends on its count only if [total_parts] messages on
    the queue say [COMPLETED]: with fewer of them, as when a reader
    reports an error instead, it never ends on the count but on a
    timeout or an exception, with a count below [total_parts]. *)
Theorem writer_needs_every_completed
    (output : bytes) (events : list queue_event) (total_parts : Z) :
  completed_count events < total_parts ->
  let r := write_part_worker_streaming output events total_parts in
  w_end r <> Counted /\ w_completed r < total_parts.
Proof.
  intros Hfew r.
  destruct (writer_loop_run events total_parts output 0 [])
    as (consumed & Hevents & Hcount & _ & _ & _ & Hend).
  fold (write_part_worker_streaming output events total_parts) in *.
  fold r in Hevents, Hcount, Hend.
  assert (w_completed r <= completed_count events) as Hle.
  { rewrite Hevents at 1. rewrite completed_count_app, Hcount.
    pose proof (completed_count_nonneg (w_unread r)). lia. }
  split; [|lia].
  intros Hcounted. rewrite Hcounted in Hend. lia.
Qed.

Lemma writer_needs_every_completed_witness :
  let r := write_part_worker_streaming [x00; x00; x00] events_failed 2 in
  w_end r <> Counted /\ w_completed r < 2.
Proof.
  apply (writer_needs_every_completed [x00; x00; x00] events_failed 2).
  reflexivity.
Defined.

Lemma writer_loop_timeout q rest total out completed log :
  Forall (fun m => is_completed m = true \/ data_ok m) q ->
  completed + completed_count (map Arrives q) < total ->
  let r := writer_loop (map Arrives q ++ Empty :: rest) total out completed
             log in
  w_end r = TimedOut /\
  w_output r = apply_writes out (flat_map msg_writes q) /\
  w_completed r = completed + completed_count (map Arrives q) /\
  w_unread r = rest.
Proof.
  intros Hok. revert out completed log.
  induction Hok as [|m q Hm _ IH]; intros out completed log Hcount.
  - simpl in *. destruct (completed <? total) eqn:E; [|lia].
    simpl. split_and!; try done; lia.
  - cbn [map app writer_loop flat_map].
    cbn [map completed_count] in Hcount |- *.
    pose proof (completed_count_nonneg (map Arrives q)) as Hnn.
    destruct Hm as [Hc|[Hterm (pos & data & Hpos & Hnneg & Hdata)]].
    + rewrite Hc in *.
      destruct (completed <? total) eqn:E; [|lia].
      assert (msg_writes m = []) as ->
        by (unfold msg_writes, is_terminal; by rewrite Hc).
      cbn [app].
      destruct (IH out (completed + 1)
                  (log ++ [LogPartDone (msg_part m) (completed + 1) total]))
        as (-> & -> & -> & ->); [lia|].
      split_and!; try done; lia.
    + pose proof Hterm as Hterm'.
      apply orb_false_elim in Hterm as [Hc Hf]. rewrite Hc, Hf in *.
      destruct (completed <? total) eqn:E; [|lia].
      rewrite Hpos, Hdata. destruct (pos <? 0) eqn:Hneg; [lia|].
      unfold msg_writes at 1. rewrite Hterm', Hpos, Hdata, apply_writes_app.
      rewrite <- write_at_byte_writes.
      destruct (IH (write_at out (Z.to_nat pos) data) completed log)
        as (-> & -> & -> & ->); [lia|].
      split_and!; try done.
Qed.

(** X23. When a wait of the writer times out before [total_parts]
    messages said [COMPLETED], the writer stops there: the output holds
    the chunks received up to then, each at its offset, and what is sent
    afterwards is never taken from the queue. *)
Theorem writer_timeout_keeps_received_chunks
    (output : bytes) (received : list message) (later : list queue_event)
    (total_parts : Z) :
  Forall (fun m => is_completed m = true \/ data_ok m) received ->
  completed_count (map Arrives received) < total_parts ->
  let r := write_part_worker_streaming output
             (map Arrives received ++ Empty :: later) total_parts in
  w_end r = TimedOut /\
  w_output r = apply_writes output (flat_map msg_writes received) /\
  w_completed r = completed_count (map Arrives received) /\
  w_unread r = later.
Proof.
  intros Hok Hfew r.
  destruct (writer_loop_timeout received later total_parts output 0 [] Hok)
    as (Hend & Hout & Hcount & Hunread); [lia|].
  unfold r, write_part_worker_streaming.
  split_and!; try done; by rewrite Hcount.
Qed.

Lemma writer_timeout_keeps_received_chunks_witness :
  let r := write_part_worker_streaming [x00; x00; x00]
             (map Arrives received_sample ++ Empty :: events_sample) 2 in
  w_end r = TimedOut /\
  w_output r = apply_writes [x00; x00; x00]
                 (flat_map msg_writes received_sample) /\
  w_completed r = completed_count (map Arrives received_sample) /\
  w_unread r = events_sample.
Proof.
  apply (writer_timeout_keeps_received_chunks [x00; x00; x00] received_sample
           events_sample 2).
  - apply Forall_cons. split.
    + right. split; [reflexivity|]. exists 2, ["c"%byte]. by split_and!.
    + apply Forall_cons. split; [by left|constructor].
  - reflexivity.
Defined.
